(** * The CSI plugin-directory watcher and the delete-pvc script

    A shallow embedding of the two Go programs of the repository:

    - the watcher ([csiWatcher], with [start], [init] and [stop]) that
      observes a directory through fsnotify and hands the name of every
      created or removed sub-directory to a handler;
    - the delete-pvc script ([workloadOfPVC], [deleteWorkload]).

    Go strings are [string]s, [fsnotify.Op] is a bit mask held in [Z],
    goroutines are program counters in a world state, and the scheduler and
    the environment (file system, fsnotify, the clock) are the labels of an
    executable step function. *)

From Stdlib Require Import ZArith Ascii String List Bool Lia.
From stdpp Require Import base option list strings gmap.

Local Open Scope string_scope.

(** ** path/filepath on Unix, over the bytes of a Go string *)

Module Filepath.

Definition Separator : ascii := "/"%char.

Definition IsPathSeparator (c : ascii) : bool := Ascii.eqb c Separator.

Definition bytes (s : string) : list ascii := list_ascii_of_string s.

Definition dot : list ascii := bytes ".".
Definition dotdot : list ascii := bytes "..".

Definition bytes_eqb (a b : list ascii) : bool :=
  String.eqb (string_of_list_ascii a) (string_of_list_ascii b).

(** The elements of a path: the pieces between separators. *)
Fixpoint path_elements (p : list ascii) : list (list ascii) :=
  match p with
  | [] => [[]]
  | c :: p' =>
      if IsPathSeparator c then [] :: path_elements p'
      else match path_elements p' with
           | e :: es => (c :: e) :: es
           | [] => [[c]]
           end
  end.

(** One turn of the loop of [Clean]: [out] is the output buffer, held as the
    stack of the elements written so far (last one first). *)
Definition clean_step (rooted : bool) (out : list (list ascii))
    (e : list ascii) : list (list ascii) :=
  match e with
  | [] => out                                  (* empty path element *)
  | _ =>
      if bytes_eqb e dot then out              (* . element *)
      else if bytes_eqb e dotdot then          (* .. element *)
        match out with
        | top :: rest =>
            if bytes_eqb top dotdot
            then (if rooted then out else e :: out)
            else rest                          (* can backtrack *)
        | [] => if rooted then out else e :: out
        end
      else e :: out                            (* real path element *)
  end.

Fixpoint join_elems (es : list (list ascii)) : list ascii :=
  match es with
  | [] => []
  | [e] => e
  | e :: es' => e ++ Separator :: join_elems es'
  end.

Definition clean_bytes (p : list ascii) : list ascii :=
  match p with
  | [] => dot
  | c :: _ =>
      let rooted := IsPathSeparator c in
      let out := fold_left (clean_step rooted) (path_elements p) [] in
      let body := join_elems (rev out) in
      if rooted then Separator :: body
      else match body with [] => dot | _ => body end
  end.

Definition Clean (path : string) : string :=
  string_of_list_ascii (clean_bytes (bytes path)).

(** [Join] of two elements: empty leading elements are skipped, the rest is
    joined with the separator and cleaned. *)
Definition Join (dir name : string) : string :=
  if String.eqb dir EmptyString then
    if String.eqb name EmptyString then EmptyString else Clean name
  else Clean (dir ++ "/" ++ name).

Fixpoint drop_while {A} (f : A -> bool) (l : list A) : list A :=
  match l with
  | [] => []
  | x :: l' => if f x then drop_while f l' else l
  end.

Fixpoint take_while {A} (f : A -> bool) (l : list A) : list A :=
  match l with
  | [] => []
  | x :: l' => if f x then x :: take_while f l' else []
  end.

Definition base_bytes (p : list ascii) : list ascii :=
  match p with
  | [] => dot
  | _ =>
      (* strip trailing slashes *)
      let stripped := drop_while IsPathSeparator (rev p) in
      (* find the last element *)
      let last := rev (take_while (fun c => negb (IsPathSeparator c)) stripped) in
      match last with
      | [] => [Separator]                      (* it had only slashes *)
      | _ => last
      end
  end.

Definition Base (path : string) : string :=
  string_of_list_ascii (base_bytes (bytes path)).

(** Bytes without a separator. *)
Definition plain (n : list ascii) : Prop :=
  forallb (fun c => negb (IsPathSeparator c)) n = true.

(** What [ioutil.ReadDir] can return as the name of a directory entry: a
    single path element other than [.] and [..]. *)
Definition entry_name (name : string) : Prop :=
  name <> EmptyString /\ name <> "." /\ name <> ".." /\ plain (bytes name).

End Filepath.

(** ** fsnotify, as far as the watcher uses it *)

Module Fsnotify.

(** [type Op uint32], one bit per kind of change. *)
Definition Create : Z := Z.shiftl 1 0.
Definition Write : Z := Z.shiftl 1 1.
Definition Remove : Z := Z.shiftl 1 2.
Definition Rename : Z := Z.shiftl 1 3.
Definition Chmod : Z := Z.shiftl 1 4.

Record Event := { Name : string; Op : Z }.

(** The state of a [*fsnotify.Watcher]: open, closed by [Close], or left in
    whatever state a failed [Close] leaves it. *)
Inductive Watcher := Open | Closed | CloseFailed.

(** [Close] with the outcome [cl] the operating system gives it; closing a
    closed watcher returns nil at once. *)
Definition Close (h : Watcher) (cl : option string) : Watcher * option string :=
  match h with
  | Closed => (Closed, None)
  | _ => match cl with
         | None => (Closed, None)
         | Some err => (CloseFailed, Some err)
         end
  end.

End Fsnotify.

(** ** The watcher *)

Module Watcher.

Import Fsnotify.

(** A Go [error], by its message; [None] is nil. *)
Definition error := string.

Definition ignoreDir : string := "kubernetes.io".

(** [time.Duration] counts nanoseconds. *)
Definition Second : Z := 1000000000.
Definition stopTimeout : Z := 11 * Second.

(** An entry of [ioutil.ReadDir]. *)
Record FileInfo := { FName : string; IsDir : bool }.

Inductive chan := ChOpen | ChClosed.

(** [csiHandler] is an opaque callback: the model records its invocations. *)
Record csiWatcher := {
  path : string;
  fsWatcher : option Watcher;        (* nil until start *)
  stopCh : option chan;              (* nil until start *)
  wg : Z                             (* the counter of the WaitGroup *)
}.

(** Where the consumer goroutine of [start] is. *)
Inductive loop_pc :=
| LoopNotStarted
| LoopSelect                               (* blocked in the select *)
| LoopInHandler (driverName : string)      (* inside w.csiHandler(driverName) *)
| LoopExited.

(** Where the goroutine that calls [start] and [stop] is. *)
Inductive caller_pc :=
| CallerIdle
| CallerInStop (t0 : Z).                   (* in the select of stop, entered at t0 *)

(** Which sender an event received by the loop came from. *)
Inductive origin := Injected | Live.

Record call := { c_origin : origin; c_name : string }.

Inductive logline :=
| Infof_HandleEvent (event : Event)
| Infof_HandleEventDriver (event : Event) (driverName : string)
| Infof_IgnoreEvent (event : Event)
| Errorf_fsWatcher (err : error)
| Error_stop (err : error)
| Info_stopOK.

Record World := {
  w : csiWatcher;
  loop : loop_pc;
  senders : list Event;    (* goroutines of init blocked in their send *)
  finishing : nat;         (* goroutines of init past the send, Done deferred *)
  drainCh : option chan;   (* the channel c of stop *)
  attached : bool;         (* fsWatcher.Add(w.path) succeeded *)
  caller : caller_pc;
  now : Z;
  calls : list call;       (* the invocations of csiHandler, oldest first *)
  klog : list logline;
  startRet : option (option error);
  stopRet : option (option error);
  crashed : option string  (* the panic that ended the process *)
}.

Definition set_w (f : csiWatcher -> csiWatcher) (s : World) : World :=
  {| w := f (w s); loop := loop s; senders := senders s; finishing := finishing s;
     drainCh := drainCh s; attached := attached s; caller := caller s; now := now s;
     calls := calls s; klog := klog s; startRet := startRet s; stopRet := stopRet s;
     crashed := crashed s |}.
Definition set_loop (x : loop_pc) (s : World) : World :=
  {| w := w s; loop := x; senders := senders s; finishing := finishing s;
     drainCh := drainCh s; attached := attached s; caller := caller s; now := now s;
     calls := calls s; klog := klog s; startRet := startRet s; stopRet := stopRet s;
     crashed := crashed s |}.
Definition set_senders (x : list Event) (s : World) : World :=
  {| w := w s; loop := loop s; senders := x; finishing := finishing s;
     drainCh := drainCh s; attached := attached s; caller := caller s; now := now s;
     calls := calls s; klog := klog s; startRet := startRet s; stopRet := stopRet s;
     crashed := crashed s |}.
Definition set_finishing (x : nat) (s : World) : World :=
  {| w := w s; loop := loop s; senders := senders s; finishing := x;
     drainCh := drainCh s; attached := attached s; caller := caller s; now := now s;
     calls := calls s; klog := klog s; startRet := startRet s; stopRet := stopRet s;
     crashed := crashed s |}.
Definition set_drainCh (x : option chan) (s : World) : World :=
  {| w := w s; loop := loop s; senders := senders s; finishing := finishing s;
     drainCh := x; attached := attached s; caller := caller s; now := now s;
     calls := calls s; klog := klog s; startRet := startRet s; stopRet := stopRet s;
     crashed := crashed s |}.
Definition set_attached (x : bool) (s : World) : World :=
  {| w := w s; loop := loop s; senders := senders s; finishing := finishing s;
     drainCh := drainCh s; attached := x; caller := caller s; now := now s;
     calls := calls s; klog := klog s; startRet := startRet s; stopRet := stopRet s;
     crashed := crashed s |}.
Definition set_caller (x : caller_pc) (s : World) : World :=
  {| w := w s; loop := loop s; senders := senders s; finishing := finishing s;
     drainCh := drainCh s; attached := attached s; caller := x; now := now s;
     calls := calls s; klog := klog s; startRet := startRet s; stopRet := stopRet s;
     crashed := crashed s |}.
Definition set_now (x : Z) (s : World) : World :=
  {| w := w s; loop := loop s; senders := senders s; finishing := finishing s;
     drainCh := drainCh s; attached := attached s; caller := caller s; now := x;
     calls := calls s; klog := klog s; startRet := startRet s; stopRet := stopRet s;
     crashed := crashed s |}.
Definition set_calls (x : list call) (s : World) : World :=
  {| w := w s; loop := loop s; senders := senders s; finishing := finishing s;
     drainCh := drainCh s; attached := attached s; caller := caller s; now := now s;
     calls := x; klog := klog s; startRet := startRet s; stopRet := stopRet s;
     crashed := crashed s |}.
Definition set_klog (x : list logline) (s : World) : World :=
  {| w := w s; loop := loop s; senders := senders s; finishing := finishing s;
     drainCh := drainCh s; attached := attached s; caller := caller s; now := now s;
     calls := calls s; klog := x; startRet := startRet s; stopRet := stopRet s;
     crashed := crashed s |}.
Definition set_startRet (x : option (option error)) (s : World) : World :=
  {| w := w s; loop := loop s; senders := senders s; finishing := finishing s;
     drainCh := drainCh s; attached := attached s; caller := caller s; now := now s;
     calls := calls s; klog := klog s; startRet := x; stopRet := stopRet s;
     crashed := crashed s |}.
Definition set_stopRet (x : option (option error)) (s : World) : World :=
  {| w := w s; loop := loop s; senders := senders s; finishing := finishing s;
     drainCh := drainCh s; attached := attached s; caller := caller s; now := now s;
     calls := calls s; klog := klog s; startRet := startRet s; stopRet := x;
     crashed := crashed s |}.
Definition panic (msg : string) (s : World) : World :=
  {| w := w s; loop := loop s; senders := senders s; finishing := finishing s;
     drainCh := drainCh s; attached := attached s; caller := caller s; now := now s;
     calls := calls s; klog := klog s; startRet := startRet s; stopRet := stopRet s;
     crashed := Some msg |}.

Definition set_fsWatcher (x : option Watcher) (s : World) : World :=
  set_w (fun c => {| path := path c; fsWatcher := x; stopCh := stopCh c; wg := wg c |}) s.
Definition set_stopCh (x : option chan) (s : World) : World :=
  set_w (fun c => {| path := path c; fsWatcher := fsWatcher c; stopCh := x; wg := wg c |}) s.

(** [w.wg.Add(n)]; [Done] is [Add(-1)].  The counter never becomes negative in
    a run of the watcher ([wg_nonneg] below), so the panic of a negative
    counter is left out. *)
Definition wgAdd (n : Z) (s : World) : World :=
  set_w (fun c => {| path := path c; fsWatcher := fsWatcher c; stopCh := stopCh c;
                     wg := wg c + n |}) s.
Definition wgDone (s : World) : World := wgAdd (-1) s.

Definition klogf (l : logline) (s : World) : World := set_klog (klog s ++ [l]) s.

Definition newCSIWatcher (path : string) : World :=
  {| w := {| path := path; fsWatcher := None; stopCh := None; wg := 0 |};
     loop := LoopNotStarted; senders := []; finishing := 0; drainCh := None;
     attached := false; caller := CallerIdle; now := 0; calls := []; klog := [];
     startRet := None; stopRet := None; crashed := None |}.

(** The test of the closure the loop runs on an event. *)
Definition eligible (event : Event) : bool :=
  (Z.land (Op event) Create =? Create)%Z || (Z.land (Op event) Remove =? Remove)%Z.

(** The body of that closure, up to the call of the handler: the lines it
    logs and the name it hands to the handler, if any. *)
Definition handleEvent (event : Event) : list logline * option string :=
  if eligible event then
    let driverName := Filepath.Base (Name event) in
    if negb (String.eqb driverName ignoreDir) then
      ([Infof_HandleEvent event; Infof_HandleEventDriver event driverName],
       Some driverName)
    else ([Infof_HandleEvent event], None)
  else ([Infof_IgnoreEvent event], None).

(** [case event := <-fsWatcher.Events]: Add(1), then the closure is called in
    the loop's own goroutine.  When the handler is not reached the closure
    returns, its deferred Done runs and the loop continues. *)
Definition loopEvent (o : origin) (event : Event) (s : World) : World :=
  let s := wgAdd 1 s in
  let '(logs, h) := handleEvent event in
  let s := set_klog (klog s ++ logs) s in
  match h with
  | Some driverName =>
      set_loop (LoopInHandler driverName)
        (set_calls (calls s ++ [{| c_origin := o; c_name := driverName |}]) s)
  | None => wgDone s
  end.

(** The goroutine [init] starts for one entry: it blocks in its send. *)
Definition goInject (fileName : string) (s : World) : World :=
  set_senders (senders s ++ [{| Name := fileName; Op := Create |}]) s.

Definition init (rd : list FileInfo + error) (s : World) : World * option error :=
  match rd with
  | inr err => (s, Some err)
  | inl files =>
      (fold_left (fun s file =>
                    if IsDir file && negb (String.eqb (FName file) ignoreDir)
                    then goInject (Filepath.Join (path (w s)) (FName file)) (wgAdd 1 s)
                    else s) files s,
       None)
  end.

(** [start], with the outcomes of [fsnotify.NewWatcher], [ioutil.ReadDir] and
    [fsWatcher.Add] given by the environment.  The consumer goroutine it
    starts only blocks in its select until [start] returns or a sender is
    ready, so [start] is one step of the caller. *)
Definition start (nw : option error) (rd : list FileInfo + error)
    (add : option error) (s : World) : World * option error :=
  let s := set_stopCh (Some ChOpen) s in
  match nw with
  | Some err => (s, Some ("failed to start plugin fsWatcher, err: " ++ err))
  | None =>
      let s := set_fsWatcher (Some Open) s in
      let s := wgAdd 1 s in
      let s := set_loop LoopSelect s in
      let '(s, err) := init rd s in
      match err with
      | Some e => (s, Some e)
      | None => (set_attached (match add with None => true | Some _ => false end) s, add)
      end
  end.

(** [stop] up to its select: close the stop channel, make [c], start the
    goroutine that waits for the WaitGroup. *)
Definition stop (s : World) : World :=
  match stopCh (w s) with
  | None => panic "close of nil channel" s
  | Some ChClosed => panic "close of closed channel" s
  | Some ChOpen =>
      set_caller (CallerInStop (now s))
        (set_drainCh (Some ChOpen) (set_stopCh (Some ChClosed) s))
  end.

(** [case <-c:] and the rest of [stop]. *)
Definition stop_drained (cl : option error) (s : World) : World :=
  match fsWatcher (w s) with
  | None => panic "invalid memory address or nil pointer dereference" s
  | Some h =>
      let '(h', err) := Close h cl in
      let s := set_fsWatcher (Some h') s in
      match err with
      | Some e => set_caller CallerIdle (set_stopRet (Some (Some e)) (klogf (Error_stop e) s))
      | None => set_caller CallerIdle (set_stopRet (Some None) (klogf Info_stopOK s))
      end
  end.

(** [case <-time.After(11 * time.Second):]. *)
Definition stop_timeout (s : World) : World :=
  set_caller CallerIdle (set_stopRet (Some (Some "timeout on stopping watcher")) s).

(** What the scheduler and the environment can do next. *)
Inductive label :=
| CallStart (nw : option error) (rd : list FileInfo + error) (add : option error)
| CallStop
| LoopRecvInject (i : nat)          (* the loop receives from the i-th sender of init *)
| LoopRecvEvent (event : Event)     (* the loop receives a live event *)
| LoopRecvError (err : option error)
| LoopRecvStop                      (* the loop takes case <-w.stopCh *)
| HandlerReturn
| InjectorDone                      (* a goroutine of init runs its deferred Done *)
| DrainWake                         (* wg.Wait() returns in stop's goroutine, c is closed *)
| StopDrained (cl : option error)   (* stop takes case <-c; Close returns cl *)
| StopTimeout                       (* stop takes case <-time.After *)
| Tick (d : Z).                     (* d nanoseconds pass *)

(** One step of the program; [None] when the step is not enabled.  One
    goroutine calls [start] and [stop], one after the other and [start] at
    most once, as [main] does.  A goroutine blocked in a select or in a send
    moves only with the label of the case it takes: the loop receives only
    while it is in its select, the channels being unbuffered; a live event
    needs the watch attached.  The handler is opaque: its call is recorded,
    and it returns with [HandlerReturn] (a handler that never returns is a
    run without that label).  After a panic nothing moves. *)
Definition step (l : label) (s : World) : option World :=
  match crashed s with
  | Some _ => None
  | None =>
      match l with
      | CallStart nw rd add =>
          match caller s, startRet s with
          | CallerIdle, None =>
              let '(s', r) := start nw rd add s in Some (set_startRet (Some r) s')
          | _, _ => None
          end
      | CallStop =>
          match caller s with
          | CallerIdle => Some (stop s)
          | _ => None
          end
      | LoopRecvInject i =>
          match loop s, senders s !! i with
          | LoopSelect, Some event =>
              Some (loopEvent Injected event
                      (set_finishing (S (finishing s))
                         (set_senders (delete i (senders s)) s)))
          | _, _ => None
          end
      | LoopRecvEvent event =>
          match loop s, fsWatcher (w s), attached s with
          | LoopSelect, Some Open, true => Some (loopEvent Live event s)
          | _, _, _ => None
          end
      | LoopRecvError err =>
          match loop s, fsWatcher (w s) with
          | LoopSelect, Some Open =>
              Some (match err with
                    | Some e => klogf (Errorf_fsWatcher e) s
                    | None => s
                    end)
          | _, _ => None
          end
      | LoopRecvStop =>
          match loop s, stopCh (w s) with
          | LoopSelect, Some ChClosed => Some (wgDone (set_loop LoopExited s))
          | _, _ => None
          end
      | HandlerReturn =>
          match loop s with
          | LoopInHandler _ => Some (set_loop LoopSelect (wgDone s))
          | _ => None
          end
      | InjectorDone =>
          match finishing s with
          | S k => Some (wgDone (set_finishing k s))
          | O => None
          end
      | DrainWake =>
          match drainCh s with
          | Some ChOpen => if (wg (w s) =? 0)%Z then Some (set_drainCh (Some ChClosed) s) else None
          | _ => None
          end
      | StopDrained cl =>
          match caller s, drainCh s with
          | CallerInStop _, Some ChClosed => Some (stop_drained cl s)
          | _, _ => None
          end
      | StopTimeout =>
          match caller s with
          | CallerInStop t0 =>
              if (t0 + stopTimeout <=? now s)%Z then Some (stop_timeout s) else None
          | _ => None
          end
      | Tick d =>
          if (0 <? d)%Z then Some (set_now (now s + d)%Z s) else None
      end
  end.

Fixpoint run (ls : list label) (s : World) : option World :=
  match ls with
  | [] => Some s
  | l :: ls' => match step l s with
                | Some s' => run ls' s'
                | None => None
                end
  end.

(** The states a session on [p] can be in. *)
Definition reachable (p : string) (s : World) : Prop :=
  exists ls, run ls (newCSIWatcher p) = Some s.

(** *** What the WaitGroup counts, and the invariant of a session *)

(** The tasks a goroutine in a given place holds in the WaitGroup: the loop
    holds one from [start] until it returns, and one more while it is inside
    the closure it calls on an event. *)
Definition loopCount (pc : loop_pc) : Z :=
  match pc with
  | LoopNotStarted | LoopExited => 0
  | LoopSelect => 1
  | LoopInHandler _ => 2
  end.

Definition tracked (s : World) : Z :=
  loopCount (loop s) + Z.of_nat (length (senders s)) + Z.of_nat (finishing s).

(** The entries [init] starts a sender for, and the events they send. *)
Definition scanned (file : FileInfo) : bool :=
  IsDir file && negb (String.eqb (FName file) ignoreDir).

Definition initEvents (p : string) (files : list FileInfo) : list Event :=
  map (fun file => {| Name := Filepath.Join p (FName file); Op := Create |})
      (List.filter scanned files).

Record Inv (s : World) : Prop := {
  inv_wg : wg (w s) = tracked s;
  inv_drain : drainCh s = Some ChClosed -> wg (w s) = 0%Z;
  inv_calls : Forall (fun c => c_name c <> ignoreDir) (calls s);
  inv_nil : fsWatcher (w s) = None ->
            loop s = LoopNotStarted /\ senders s = [] /\ finishing s = 0%nat;
  inv_nocalls : fsWatcher (w s) = None -> calls s = [];
  inv_unattached : fsWatcher (w s) = None -> attached s = false;
  inv_started : loop s = LoopNotStarted -> fsWatcher (w s) = None;
  inv_fresh : stopCh (w s) = None ->
              startRet s = None /\ fsWatcher (w s) = None /\ drainCh s = None /\
              stopRet s = None /\ caller s = CallerIdle;
  inv_startRet : startRet s = None -> stopCh (w s) = None;
  inv_instop : forall t0, caller s = CallerInStop t0 ->
               stopRet s = None /\ stopCh (w s) = Some ChClosed /\
               drainCh s <> None /\ (t0 <= now s)%Z;
  inv_held : stopRet s = None ->
             fsWatcher (w s) = None \/ fsWatcher (w s) = Some Open;
  inv_returned : stopRet s <> None ->
                 stopCh (w s) = Some ChClosed /\ caller s = CallerIdle;
  inv_nilret : stopRet s = Some None ->
               loop s = LoopExited /\ fsWatcher (w s) = Some Closed /\ wg (w s) = 0%Z;
  inv_exited : loop s = LoopExited -> stopCh (w s) = Some ChClosed
}.

(** The names handed to the handler for events that [init] sent. *)
Definition injectedNames (cs : list call) : list string :=
  map c_name (List.filter (fun c => match c_origin c with Injected => true | Live => false end) cs).

(** The call of the handler an event leads to, if any. *)
Definition callOf (o : origin) (event : Event) : list call :=
  match snd (handleEvent event) with
  | Some driverName => [{| c_origin := o; c_name := driverName |}]
  | None => []
  end.

(** A sender of [init] on the watched path [p]: it sends a Create event for
    a directory entry whose name is not the reserved one. *)
Definition senderOf (p : string) (event : Event) : Prop :=
  exists name, Filepath.entry_name name /\ name <> ignoreDir /\
               event = {| Name := Filepath.Join p name; Op := Create |}.

(** What [ioutil.ReadDir] gives [start]: entries that carry the names of
    directory entries. *)
Definition listed (l : label) : Prop :=
  match l with
  | CallStart _ (inl files) _ =>
      Forall (fun file => Filepath.entry_name (FName file)) files
  | _ => True
  end.

(** The name the handler is called with on [event]. *)
Definition leaf (event : Event) : string := Filepath.Base (Name event).

(** The names of the entries the initial scan stands for. *)
Definition scannedNames (files : list FileInfo) : list string :=
  map FName (List.filter scanned files).

(** An event the loop hands to the handler under its leaf name. *)
Definition dispatched (event : Event) : Prop :=
  snd (handleEvent event) = Some (leaf event).

(** What holds of the initial scan in every state after [start]: each name
    scanned is either with a sender still blocked or was handed to the
    handler, never both and never twice. *)
Definition scanInv (names : list string) (s : World) : Prop :=
  startRet s <> None /\ Forall dispatched (senders s) /\
  Permutation (injectedNames (calls s) ++ map leaf (senders s)) names.

(** The schedule that lets the loop take every pending event of the initial
    scan, one after the other, the handler returning each time. *)
Fixpoint drainSchedule (n : nat) : list label :=
  match n with
  | O => []
  | S n' => LoopRecvInject 0 :: HandlerReturn :: drainSchedule n'
  end.

(** The state a schedule leads to (the state itself when the schedule cannot
    be run). *)
Definition after (ls : list label) (s : World) : World :=
  match run ls s with
  | Some s' => s'
  | None => s
  end.

(** The session of [main], and a plugin directory with the entries
    [A], [B] and [kubernetes.io]. *)
Definition pluginsPath : string := "/var/lib/kubelet/plugins".

Definition dir (name : string) : FileInfo := {| FName := name; IsDir := true |}.

Definition pluginDirs : list FileInfo := [dir "A"; dir "B"; dir "kubernetes.io"].

Definition session : World := newCSIWatcher pluginsPath.

(** A run in which the reserved directory is created and removed while the
    session is running. *)
Definition reservedRun : list label :=
  [CallStart None (inl pluginDirs) None;
   LoopRecvEvent {| Name := "/var/lib/kubelet/plugins/kubernetes.io"; Op := Create |};
   LoopRecvInject 0;
   HandlerReturn;
   LoopRecvEvent {| Name := "/var/lib/kubelet/plugins/kubernetes.io"; Op := Remove |}].

(** A run in which [stop] is called once the only entry has been handled,
    up to the moment the WaitGroup has drained ... *)
Definition drainedRun : list label :=
  [CallStart None (inl [dir "A"]) None; LoopRecvInject 0; HandlerReturn; InjectorDone;
   CallStop; LoopRecvStop; DrainWake].

(** ... and to the return of [stop]. *)
Definition stoppedRun : list label := (drainedRun ++ [StopDrained None])%list.

(** A run in which the handler is still busy with [A] eleven seconds after
    [stop] was called. *)
Definition slowRun : list label :=
  [CallStart None (inl pluginDirs) None; LoopRecvInject 0; CallStop; Tick 11000000000].

(** A run in which the directory cannot be listed. *)
Definition unreadableRun : list label :=
  [CallStart None (inr "open /var/lib/kubelet/plugins: no such file or directory") None].

(** A run that leaves the handler busy with [A] while the sender for [B]
    is waiting. *)
Definition busyRun : list label :=
  [CallStart None (inl pluginDirs) None; LoopRecvInject 0].

(** The labels with which the loop takes its next record or signal. *)
Definition is_recv (l : label) : bool :=
  match l with
  | LoopRecvInject _ | LoopRecvEvent _ | LoopRecvError _ | LoopRecvStop => true
  | _ => false
  end.

(** A run in which [stop] is called right after [start]: the loop takes the
    stop signal first and the senders of the scan are left behind. *)
Definition orphanRun : list label :=
  [CallStart None (inl pluginDirs) None; CallStop; LoopRecvStop].

(** A run in which [fsnotify.NewWatcher] fails. *)
Definition failedRun : list label :=
  [CallStart (Some "too many open files") (inl pluginDirs) None].

(** The schedule in which the loop takes the given pending events of the
    scan one after the other, the handler returning each time it is called. *)
Fixpoint receiveAll (events : list Event) : list label :=
  match events with
  | [] => []
  | event :: rest =>
      (LoopRecvInject 0 ::
       match snd (handleEvent event) with
       | Some _ => [HandlerReturn]
       | None => []
       end) ++ receiveAll rest
  end.

(** The schedule that lets a running session come to rest (the handler
    returns, the pending events of the scan are taken, their senders call
    Done) and then runs [stop] to its return, [Close] returning [cl]. *)
Definition shutdownSchedule (s : World) (cl : option error) : list label :=
  match loop s with
  | LoopInHandler _ => [HandlerReturn]
  | _ => []
  end ++
  receiveAll (senders s) ++
  repeat InjectorDone (finishing s + length (senders s)) ++
  [CallStop; LoopRecvStop; DrainWake; StopDrained cl].

(** The watcher has been through [Close]. *)
Definition closeCalled (s : World) : Prop :=
  fsWatcher (w s) = Some Closed \/ fsWatcher (w s) = Some CloseFailed.

(** [Close] is called only once the WaitGroup has drained, and on the way
    to the return of [stop]. *)
Definition closedInv (s : World) : Prop :=
  closeCalled s -> wg (w s) = 0%Z /\ stopRet s <> None.

(** A session that is running with its loop in the select: [start] has
    created the watcher, [stop] has not been called. *)
Definition ready (s : World) : Prop :=
  crashed s = None /\ caller s = CallerIdle /\ stopCh (w s) = Some ChOpen /\
  fsWatcher (w s) = Some Open /\ loop s = LoopSelect.

(** The lines the loop logs for the values it receives from the error
    channel: nothing for nil. *)
Definition errorLines (errs : list (option error)) : list logline :=
  flat_map (fun err => match err with
                       | Some e => [Errorf_fsWatcher e]
                       | None => []
                       end) errs.

(** Live events reach the handler only through an attached watch, and the
    watch is attached only by a [start] that returns nil. *)
Definition attachedInv (s : World) : Prop :=
  (attached s = true -> startRet s = Some None) /\
  Forall (fun c => c_origin c = Live -> attached s = true) (calls s).

(** A run in which the watch cannot be attached, and the loop takes the
    first event of the scan all the same. *)
Definition unattachedRun : list label :=
  [CallStart None (inl pluginDirs) (Some "no space left on device"); LoopRecvInject 0].

End Watcher.

(** ** The delete-pvc script *)

Module DeletePVC.

Definition error := string.

(** [metav1.OwnerReference]; [Controller] is a [*bool]. *)
Record OwnerReference := { Kind : string; Name : string; Controller : option bool }.

(** A volume of a pod: the claim name of its [PersistentVolumeClaim] source,
    nil for a volume of another kind. *)
Record Volume := { PersistentVolumeClaim : option string }.

Record Pod := { PodOwnerReferences : list OwnerReference; Volumes : list Volume }.

Record ReplicaSet := { RSOwnerReferences : list OwnerReference }.

(** The requests the script sends to the API server. *)
Inductive request :=
| PodList
| ReplicaSetGet (name : string)
| StatefulSetDelete (name : string)
| DeploymentDelete (name : string).

(** The namespace the package-level clients talk to.  Any request can fail:
    [faults n] is the error, if any, with which the n-th request of the
    script is answered instead of being served (the server is unreachable,
    the request is forbidden, it times out, ...). *)
Record Cluster := {
  podItems : list Pod + error;            (* the answer of podClient.List *)
  replicaSets : gmap string ReplicaSet;
  statefulSets : gset string;
  deployments : gset string;
  requests : list request;                (* sent so far, oldest first *)
  faults : nat -> option error
}.

Definition sent (r : request) (c : Cluster) : Cluster :=
  {| podItems := podItems c; replicaSets := replicaSets c;
     statefulSets := statefulSets c; deployments := deployments c;
     requests := requests c ++ [r]; faults := faults c |}.

(** The error with which the next request is answered, if it is not served. *)
Definition nextFault (c : Cluster) : option error := faults c (length (requests c)).

Definition notFound (resource name : string) : error :=
  resource ++ " " ++ name ++ " not found".

Definition podClient_List (c : Cluster) : Cluster * (list Pod + error) :=
  (sent PodList c, podItems c).

Definition replicaSetClient_Get (name : string) (c : Cluster)
    : Cluster * (ReplicaSet + error) :=
  (sent (ReplicaSetGet name) c,
   match nextFault c with
   | Some err => inr err
   | None =>
       match replicaSets c !! name with
       | Some rs => inl rs
       | None => inr (notFound "replicasets.apps" name)
       end
   end).

Definition statefulSetClient_Delete (name : string) (c : Cluster)
    : Cluster * option error :=
  let fault := nextFault c in
  let c := sent (StatefulSetDelete name) c in
  match fault with
  | Some err => (c, Some err)
  | None =>
      if decide (name ∈ statefulSets c) then
        ({| podItems := podItems c; replicaSets := replicaSets c;
            statefulSets := statefulSets c ∖ {[name]}; deployments := deployments c;
            requests := requests c; faults := faults c |}, None)
      else (c, Some (notFound "statefulsets.apps" name))
  end.

Definition deploymentClient_Delete (name : string) (c : Cluster)
    : Cluster * option error :=
  let fault := nextFault c in
  let c := sent (DeploymentDelete name) c in
  match fault with
  | Some err => (c, Some err)
  | None =>
      if decide (name ∈ deployments c) then
        ({| podItems := podItems c; replicaSets := replicaSets c;
            statefulSets := statefulSets c; deployments := deployments c ∖ {[name]};
            requests := requests c; faults := faults c |}, None)
      else (c, Some (notFound "deployments.apps" name))
  end.

(** [metav1.GetControllerOf]: the first owner reference whose [Controller]
    is set and true. *)
Fixpoint GetControllerOf (refs : list OwnerReference) : option OwnerReference :=
  match refs with
  | [] => None
  | ref :: refs' =>
      match Controller ref with
      | Some true => Some ref
      | _ => GetControllerOf refs'
      end
  end.

(** What [workloadOfPVC] does once a volume of [pod] names the claim. *)
Definition ownerOfPod (pod : Pod) (c : Cluster)
    : Cluster * (option OwnerReference * option error) :=
  match GetControllerOf (PodOwnerReferences pod) with
  | None => (c, (None, Some "pod ownerReference is nil"))
  | Some podOwner =>
      if String.eqb (Kind podOwner) "StatefulSet" then (c, (Some podOwner, None))
      else if String.eqb (Kind podOwner) "ReplicaSet" then
        let '(c, r) := replicaSetClient_Get (Name podOwner) c in
        match r with
        | inr err => (c, (None, Some err))
        | inl rs =>
            match GetControllerOf (RSOwnerReferences rs) with
            | None => (c, (None, Some "rs ownerReference is nil"))
            | Some rsOwner => (c, (Some rsOwner, None))
            end
        end
      else (c, (None, Some ("ownerReference kind: " ++ Kind podOwner)))
  end.

(** The inner loop over the volumes of one pod: it returns out of
    [workloadOfPVC] at the first volume that names the claim. *)
Fixpoint scanVolumes (pvcName : string) (pod : Pod) (vols : list Volume)
    (c : Cluster) : option (Cluster * (option OwnerReference * option error)) :=
  match vols with
  | [] => None
  | volume :: vols' =>
      match PersistentVolumeClaim volume with
      | Some claimName =>
          if String.eqb claimName pvcName then Some (ownerOfPod pod c)
          else scanVolumes pvcName pod vols' c
      | None => scanVolumes pvcName pod vols' c
      end
  end.

Fixpoint scanPods (pvcName : string) (pods : list Pod) (c : Cluster)
    : Cluster * (option OwnerReference * option error) :=
  match pods with
  | [] => (c, (None, None))
  | pod :: pods' =>
      match scanVolumes pvcName pod (Volumes pod) c with
      | Some r => r
      | None => scanPods pvcName pods' c
      end
  end.

Definition workloadOfPVC (pvcName : string) (c : Cluster)
    : Cluster * (option OwnerReference * option error) :=
  let '(c, r) := podClient_List c in
  match r with
  | inr err => (c, (None, Some err))
  | inl items => scanPods pvcName items c
  end.

Definition deleteWorkload (owner : OwnerReference) (c : Cluster)
    : Cluster * option error :=
  if String.eqb (Kind owner) "StatefulSet" then statefulSetClient_Delete (Name owner) c
  else if String.eqb (Kind owner) "Deployment" then deploymentClient_Delete (Name owner) c
  else (c, Some ("unkown workload: " ++ Kind owner ++ " ")).

(** The deletion requests among the requests sent. *)
Definition is_delete (r : request) : bool :=
  match r with
  | StatefulSetDelete _ | DeploymentDelete _ => true
  | _ => false
  end.

(** A namespace with one pod that mounts the claim [data] and is controlled
    by the ReplicaSet [web-5d4f7], itself controlled by [rsOwner]. *)
Definition rsCluster (rsOwner : OwnerReference) : Cluster :=
  {| podItems :=
       inl [{| PodOwnerReferences :=
                 [{| Kind := "ReplicaSet"; Name := "web-5d4f7"; Controller := Some true |}];
               Volumes := [{| PersistentVolumeClaim := None |};
                           {| PersistentVolumeClaim := Some "data" |}] |}];
     replicaSets := {[ "web-5d4f7" := {| RSOwnerReferences := [rsOwner] |} ]};
     statefulSets := ∅;
     deployments := ∅;
     requests := [];
     faults := fun _ => None |}.

(** *** Claims and volumes *)

(** [spec.persistentVolumeReclaimPolicy] of a volume. *)
Inductive ReclaimPolicy := PolicyRetain | PolicyDelete | PolicyRecycle.

Inductive storageRequest :=
| ClaimGet (name : string)
| VolumePatch (name : string)
| ClaimDelete (name : string).

(** What [pvcClient] and [pvClient] talk to: the claims of the namespace,
    each with its [Spec.VolumeName] (empty while the claim is not bound), and
    the volumes of the cluster, each with its reclaim policy.  As for the
    workloads, [storageFaults n] is the error, if any, with which the n-th
    of these requests is answered instead of being served. *)
Record Storage := {
  claims : gmap string string;
  volumes : gmap string ReclaimPolicy;
  storageRequests : list storageRequest;     (* sent so far, oldest first *)
  storageFaults : nat -> option error
}.

Definition sentStorage (r : storageRequest) (st : Storage) : Storage :=
  {| claims := claims st; volumes := volumes st;
     storageRequests := storageRequests st ++ [r];
     storageFaults := storageFaults st |}.

Definition nextStorageFault (st : Storage) : option error :=
  storageFaults st (length (storageRequests st)).

Definition pvcClient_Get (name : string) (st : Storage) : Storage * (string + error) :=
  (sentStorage (ClaimGet name) st,
   match nextStorageFault st with
   | Some err => inr err
   | None =>
       match claims st !! name with
       | Some volumeName => inl volumeName
       | None => inr (notFound "persistentvolumeclaims" name)
       end
   end).

(** [pvClient.Patch] with the merge patch of [retainPV], which sets the
    reclaim policy and nothing else.  The client refuses an empty name. *)
Definition pvClient_Patch (name : string) (policy : ReclaimPolicy) (st : Storage)
    : Storage * option error :=
  let fault := nextStorageFault st in
  let st := sentStorage (VolumePatch name) st in
  if String.eqb name EmptyString then (st, Some "resource name may not be empty")
  else match fault with
       | Some err => (st, Some err)
       | None =>
           match volumes st !! name with
           | Some _ =>
               ({| claims := claims st; volumes := <[name := policy]> (volumes st);
                   storageRequests := storageRequests st;
                   storageFaults := storageFaults st |}, None)
           | None => (st, Some (notFound "persistentvolumes" name))
           end
       end.

Definition pvcClient_Delete (name : string) (st : Storage) : Storage * option error :=
  let fault := nextStorageFault st in
  let st := sentStorage (ClaimDelete name) st in
  match fault with
  | Some err => (st, Some err)
  | None =>
      match claims st !! name with
      | Some _ =>
          ({| claims := delete name (claims st); volumes := volumes st;
              storageRequests := storageRequests st;
              storageFaults := storageFaults st |}, None)
      | None => (st, Some (notFound "persistentvolumeclaims" name))
      end
  end.

Definition retainPV (pvcName : string) (st : Storage) : Storage * option error :=
  let '(st, r) := pvcClient_Get pvcName st in
  match r with
  | inr err => (st, Some err)
  | inl volumeName => pvClient_Patch volumeName PolicyRetain st
  end.

(** A volume of the pod names the claim. *)
Definition mounts (pvcName : string) (pod : Pod) : bool :=
  existsb (fun volume => match PersistentVolumeClaim volume with
                         | Some claimName => String.eqb claimName pvcName
                         | None => false
                         end) (Volumes pod).

(** *** Asking the user *)

Definition newline : ascii := "010"%char.

(** [reader.ReadString] with the newline as delimiter, on the bytes the
    reader still gets from standard input: the bytes up to and including the
    first newline, what is left after it, and nil; or, when the input ends
    before a newline, the bytes read and [io.EOF]. *)
Fixpoint ReadString (input : string) : string * string * option error :=
  match input with
  | EmptyString => (EmptyString, EmptyString, Some "EOF")
  | String c rest =>
      if Ascii.eqb c newline then (String c EmptyString, rest, None)
      else let '(line, rest', err) := ReadString rest in (String c line, rest', err)
  end.

(** What [confirm] prints before it reads. *)
Definition prompt (cue : string) : string := " " ++ cue ++ " [yes/no]: ".

(** [strings.TrimSpace] on strings of ASCII bytes. *)
Definition asciiSpace (c : ascii) : bool :=
  let n := nat_of_ascii c in
  Nat.eqb n 9 || Nat.eqb n 10 || Nat.eqb n 11 || Nat.eqb n 12 || Nat.eqb n 13 || Nat.eqb n 32.

Definition asciiTrimSpace (s : string) : string :=
  string_of_list_ascii
    (rev (Filepath.drop_while asciiSpace
            (rev (Filepath.drop_while asciiSpace (list_ascii_of_string s))))).

Inductive mainLog :=
| Error_flags
| Error_workload (err : error)
| Info_notBound
| Error_deleteWorkload (err : error)
| Error_retainPV (err : error)
| Error_deletePVC (err : error).

(** The state of the script when [main] returns. *)
Record Process := {
  cluster : Cluster;
  storage : Storage;
  stdout : list string;      (* the prompts printed *)
  klog : list mainLog
}.

Section Script.

(** [strings.TrimSpace], of the Go library. *)
Variable TrimSpace : string -> string.

(** The loop of [confirm] on the input its reader gets, [out] being what was
    printed so far.  [fuel] bounds the turns of the loop; [None] is running
    out of it. *)
Fixpoint confirm_loop (fuel : nat) (cue input : string) (out : list string)
    : option (bool * option error * list string) :=
  match fuel with
  | O => None
  | S fuel' =>
      let out := (out ++ [prompt cue])%list in
      let '(line, rest, err) := ReadString input in
      match err with
      | Some e => Some (false, Some e, out)
      | None =>
          let answer := TrimSpace line in
          if String.eqb answer "yes" then Some (true, None, out)
          else if String.eqb answer "no" then Some (false, None, out)
          else confirm_loop fuel' cue rest out
      end
  end.

(** [confirm]: every turn of the loop but the last consumes a newline, so
    one turn more than the input has bytes is enough ([confirm_returns]). *)
Definition confirm (cue input : string) : bool * option error * list string :=
  match confirm_loop (S (String.length input)) cue input [] with
  | Some r => r
  | None => (false, Some "EOF", [])
  end.

(** [main], given the values of the flags, the outcomes of building the
    client configuration and the client set, and the input each of the three
    readers of [confirm] gets from standard input. *)
Definition main (pvcName namespace : string) (config clientSet : option error)
    (in1 in2 in3 : string) (c : Cluster) (st : Storage) : Process :=
  let quit c st out log := {| cluster := c; storage := st; stdout := out; klog := log |} in
  if Nat.eqb (String.length pvcName) 0 || Nat.eqb (String.length namespace) 0
  then quit c st [] [Error_flags]
  else
    match config, clientSet with
    | Some _, _ => quit c st [] []
    | None, Some _ => quit c st [] []
    | None, None =>
        let '(c, (owner, err)) := workloadOfPVC pvcName c in
        match err, owner with
        | Some e, _ => quit c st [] [Error_workload e]
        | None, None => quit c st [] [Info_notBound]
        | None, Some owner =>
            let '(confirm1, _, out1) :=
              confirm ("Delete workload " ++ namespace ++ "/" ++ Kind owner ++ "/"
                       ++ Name owner ++ "?") in1 in
            if confirm1 then
              let '(c, err) := deleteWorkload owner c in
              match err with
              | Some e => quit c st out1 [Error_deleteWorkload e]
              | None =>
                  let '(confirm2, _, out2) :=
                    confirm ("retain pv of pvc: " ++ pvcName ++ "?") in2 in
                  let '(st, err2) :=
                    if confirm2 then retainPV pvcName st else (st, None) in
                  match err2 with
                  | Some e => quit c st (out1 ++ out2)%list [Error_retainPV e]
                  | None =>
                      let '(confirm3, _, out3) :=
                        confirm ("Delete pvc " ++ namespace ++ "/" ++ pvcName ++ "?") in3 in
                      if confirm3 then
                        let '(st, err3) := pvcClient_Delete pvcName st in
                        match err3 with
                        | Some e =>
                            quit c st (out1 ++ out2 ++ out3)%list [Error_deletePVC e]
                        | None => quit c st (out1 ++ out2 ++ out3)%list []
                        end
                      else quit c st (out1 ++ out2 ++ out3)%list []
                  end
              end
            else quit c st out1 []
        end
    end.

End Script.

(** A string without a newline, and a line: bytes without a newline
    followed by one. *)
Fixpoint noNewline (s : string) : bool :=
  match s with
  | EmptyString => true
  | String c rest => negb (Ascii.eqb c newline) && noNewline rest
  end.

Fixpoint completeLine (s : string) : bool :=
  match s with
  | EmptyString => false
  | String c rest =>
      if Ascii.eqb c newline then String.eqb rest EmptyString else completeLine rest
  end.

(** An answer [confirm] accepts. *)
Definition decides (answer : string) : bool :=
  String.eqb answer "yes" || String.eqb answer "no".

(** Lines one after the other. *)
Definition joinLines (lines : list string) : string :=
  fold_right String.append EmptyString lines.

(** A namespace for the examples: the pod of [rsCluster] controlled through
    its ReplicaSet by the Deployment [web], the claim [data] bound to the
    volume [pv-7] whose policy is Delete. *)
Definition webOwner : OwnerReference :=
  {| Kind := "Deployment"; Name := "web"; Controller := Some true |}.

Definition webCluster : Cluster :=
  {| podItems := podItems (rsCluster webOwner);
     replicaSets := replicaSets (rsCluster webOwner);
     statefulSets := ∅;
     deployments := {[ "web" ]};
     requests := [];
     faults := fun _ => None |}.

Definition webStorage : Storage :=
  {| claims := {[ "data" := "pv-7" ]};
     volumes := {[ "pv-7" := PolicyDelete ]};
     storageRequests := [];
     storageFaults := fun _ => None |}.

(** Three pods: one that does not mount the claim [data], one that mounts
    it and has no controller, one that mounts it and is controlled by the
    StatefulSet [db]. *)
Definition idlePod : Pod :=
  {| PodOwnerReferences := []; Volumes := [{| PersistentVolumeClaim := Some "logs" |}] |}.

Definition barePod : Pod :=
  {| PodOwnerReferences := [{| Kind := "Job"; Name := "once"; Controller := None |}];
     Volumes := [{| PersistentVolumeClaim := Some "data" |}] |}.

Definition dbPod : Pod :=
  {| PodOwnerReferences :=
       [{| Kind := "StatefulSet"; Name := "db"; Controller := Some true |}];
     Volumes := [{| PersistentVolumeClaim := Some "data" |}] |}.

Definition mixedCluster : Cluster :=
  {| podItems := inl [idlePod; barePod; dbPod];
     replicaSets := ∅; statefulSets := {[ "db" ]}; deployments := ∅;
     requests := []; faults := fun _ => None |}.

End DeletePVC.

(** * Facts about the path functions *)

Section FilepathFacts.

Import Filepath.

Example Base_plugin : Base "/var/lib/kubelet/plugins/csi-qingcloud" = "csi-qingcloud".
Proof. reflexivity. Qed.

Example Base_trailing : Base "/a/b//" = "b".
Proof. reflexivity. Qed.

Example Base_root : Base "///" = "/".
Proof. reflexivity. Qed.

Example Join_plain : Join "/var/lib/kubelet/plugins" "A" = "/var/lib/kubelet/plugins/A".
Proof. reflexivity. Qed.

Example Join_cleans : Join "a/../../b/./c//" "d" = "../b/c/d".
Proof. reflexivity. Qed.

Example Join_root : Join "/.." "x" = "/x".
Proof. reflexivity. Qed.

Lemma bytes_app (a b : string) : bytes (a ++ b) = (bytes a ++ bytes b)%list.
Proof.
  unfold bytes. induction a as [|c a IH]; simpl; [reflexivity|].
  now rewrite IH.
Qed.

Lemma bytes_inj (a b : string) : bytes a = bytes b -> a = b.
Proof.
  unfold bytes. intros H.
  rewrite <- (string_of_list_ascii_of_string a), <- (string_of_list_ascii_of_string b).
  now rewrite H.
Qed.

Lemma bytes_eqb_true (a b : list ascii) : bytes_eqb a b = true <-> a = b.
Proof.
  unfold bytes_eqb. rewrite String.eqb_eq. split; [|now intros ->].
  intros H.
  rewrite <- (list_ascii_of_string_of_list_ascii a),
          <- (list_ascii_of_string_of_list_ascii b).
  now rewrite H.
Qed.

Lemma bytes_eqb_false (a b : list ascii) : a <> b -> bytes_eqb a b = false.
Proof.
  intros H. destruct (bytes_eqb a b) eqn:E; [|reflexivity].
  apply bytes_eqb_true in E. contradiction.
Qed.

Lemma path_elements_plain (n : list ascii) : plain n -> path_elements n = [n].
Proof.
  unfold plain. induction n as [|c n IH]; simpl; [reflexivity|].
  intros H. apply andb_prop in H as [Hc Hn].
  apply negb_true_iff in Hc. rewrite Hc, (IH Hn). reflexivity.
Qed.

Lemma path_elements_nonempty (p : list ascii) : path_elements p <> [].
Proof.
  destruct p as [|c p]; simpl; [discriminate|].
  destruct (IsPathSeparator c); [discriminate|].
  destruct (path_elements p); discriminate.
Qed.

Lemma path_elements_sep (d n : list ascii) :
  path_elements (d ++ Separator :: n) = (path_elements d ++ path_elements n)%list.
Proof.
  induction d as [|c d IH]; simpl.
  - reflexivity.
  - rewrite IH. destruct (IsPathSeparator c); [reflexivity|].
    pose proof (path_elements_nonempty d) as Hne.
    destruct (path_elements d) as [|e es]; [contradiction|]. reflexivity.
Qed.

Lemma fold_left_snoc {A B} (f : A -> B -> A) (l : list B) (x : B) (a : A) :
  fold_left f (l ++ [x]) a = f (fold_left f l a) x.
Proof. now rewrite fold_left_app. Qed.

Lemma clean_step_real (rooted : bool) (out : list (list ascii)) (n : list ascii) :
  n <> [] -> n <> dot -> n <> dotdot -> clean_step rooted out n = n :: out.
Proof.
  intros H0 H1 H2. unfold clean_step.
  destruct n as [|c n]; [contradiction|].
  now rewrite (bytes_eqb_false _ _ H1), (bytes_eqb_false _ _ H2).
Qed.

(** The joined elements end with the last element, which follows a
    separator unless it stands alone. *)
Lemma join_elems_snoc (es : list (list ascii)) (n : list ascii) :
  exists pre, join_elems (es ++ [n]) = (pre ++ n)%list /\
              (pre = [] \/ exists q, pre = (q ++ [Separator])%list).
Proof.
  induction es as [|e es IH]; simpl.
  - exists []. split; [reflexivity | now left].
  - destruct IH as (pre & Heq & Hpre).
    destruct (es ++ [n])%list as [|x xs] eqn:E.
    { now destruct es. }
    rewrite Heq. exists (e ++ Separator :: pre)%list. split.
    + now rewrite <- app_assoc.
    + right. destruct Hpre as [-> | (q & ->)].
      * now exists e.
      * exists (e ++ Separator :: q)%list. now rewrite <- app_assoc.
Qed.

Lemma take_while_plain (n rest : list ascii) :
  plain n -> (rest = [] \/ exists q, rest = Separator :: q) ->
  take_while (fun c => negb (IsPathSeparator c)) (n ++ rest) = n.
Proof.
  unfold plain. induction n as [|c n IH]; simpl; intros Hn Hrest.
  - destruct Hrest as [-> | (q & ->)]; reflexivity.
  - apply andb_prop in Hn as [Hc Hn]. rewrite Hc. now rewrite IH.
Qed.

Lemma plain_rev (n : list ascii) : plain n -> plain (rev n).
Proof.
  unfold plain. rewrite !forallb_forall. intros H x Hx.
  apply H. now apply in_rev.
Qed.

(** [Base] gives back a last element that follows a separator. *)
Lemma base_bytes_last (pre n : list ascii) :
  n <> [] -> plain n -> (pre = [] \/ exists q, pre = (q ++ [Separator])%list) ->
  base_bytes (pre ++ n) = n.
Proof.
  intros Hne Hn Hpre. unfold base_bytes.
  destruct (pre ++ n)%list as [|a l] eqn:E.
  { apply app_eq_nil in E as [_ ->]. contradiction. }
  rewrite <- E. rewrite rev_app_distr.
  assert (Hr : exists c r, rev n = c :: r /\ IsPathSeparator c = false).
  { pose proof (plain_rev n Hn) as Hp.
    destruct (rev n) as [|c r] eqn:Er.
    - apply (f_equal (@rev ascii)) in Er. rewrite rev_involutive in Er.
      simpl in Er. contradiction.
    - exists c, r. split; [reflexivity|].
      unfold plain in Hp. simpl in Hp. apply andb_prop in Hp as [Hc _].
      now apply negb_true_iff in Hc. }
  destruct Hr as (c & r & Er & Hc).
  assert (Hdrop : drop_while IsPathSeparator (rev n ++ rev pre) = (rev n ++ rev pre)%list).
  { rewrite Er. simpl. now rewrite Hc. }
  rewrite Hdrop. rewrite take_while_plain.
  - rewrite rev_involutive. destruct n; [contradiction | reflexivity].
  - now apply plain_rev.
  - destruct Hpre as [-> | (q & ->)]; [now left|].
    right. exists (rev q). now rewrite rev_app_distr.
Qed.

Lemma clean_bytes_last (d n : list ascii) :
  d <> [] -> n <> [] -> n <> dot -> n <> dotdot -> plain n ->
  exists pre, clean_bytes (d ++ Separator :: n) = (pre ++ n)%list /\
              (pre = [] \/ exists q, pre = (q ++ [Separator])%list).
Proof.
  intros Hd H0 H1 H2 Hn. unfold clean_bytes.
  destruct d as [|c d]; [contradiction|].
  rewrite <- app_comm_cons. cbv beta iota zeta.
  rewrite app_comm_cons, path_elements_sep, (path_elements_plain n Hn), fold_left_snoc.
  rewrite clean_step_real by assumption.
  change (rev (n :: ?l)) with (rev l ++ [n])%list.
  destruct (join_elems_snoc
              (rev (fold_left (clean_step (IsPathSeparator c)) (path_elements (c :: d)) [])) n)
    as (pre & Heq & Hpre).
  rewrite Heq. destruct (IsPathSeparator c).
  - exists (Separator :: pre). split; [reflexivity|].
    right. destruct Hpre as [-> | (q & ->)].
    + now exists [].
    + now exists (Separator :: q).
  - exists pre. split; [|assumption].
    destruct (pre ++ n)%list eqn:E; [|reflexivity].
    apply app_eq_nil in E as [_ ->]. contradiction.
Qed.

Lemma clean_bytes_plain (n : list ascii) :
  n <> [] -> n <> dot -> n <> dotdot -> plain n -> clean_bytes n = n.
Proof.
  intros H0 H1 H2 Hn. unfold clean_bytes.
  assert (Hc : exists c r, n = c :: r /\ IsPathSeparator c = false).
  { destruct n as [|c r]; [contradiction|]. exists c, r. split; [reflexivity|].
    unfold plain in Hn. simpl in Hn. apply andb_prop in Hn as [Hc _].
    now apply negb_true_iff in Hc. }
  destruct Hc as (c & r & E & Hc).
  subst n. cbv beta iota zeta.
  rewrite (path_elements_plain _ Hn). cbn [fold_left].
  rewrite clean_step_real by assumption. cbn [rev join_elems app]. now rewrite Hc.
Qed.

Lemma entry_name_bytes (name : string) :
  entry_name name ->
  bytes name <> [] /\ bytes name <> dot /\ bytes name <> dotdot /\ plain (bytes name).
Proof.
  intros (H0 & H1 & H2 & Hp). repeat split; try assumption.
  - intros E. apply H0. apply bytes_inj. exact E.
  - intros E. apply H1. apply bytes_inj. exact E.
  - intros E. apply H2. apply bytes_inj. exact E.
Qed.

(** The leaf name of the path [init] builds for an entry is the name of the
    entry, whatever the watched path is. *)
Lemma Base_Join (dir name : string) :
  entry_name name -> Base (Join dir name) = name.
Proof.
  intros Hname. pose proof Hname as (Hne & _).
  apply entry_name_bytes in Hname as (H0 & H1 & H2 & Hp).
  unfold Join, Base.
  destruct (String.eqb dir EmptyString) eqn:Ed.
  - destruct (String.eqb name EmptyString) eqn:En.
    { apply String.eqb_eq in En. contradiction. }
    unfold Clean, bytes at 1. rewrite list_ascii_of_string_of_list_ascii.
    rewrite clean_bytes_plain by assumption.
    pose proof (base_bytes_last [] (bytes name) H0 Hp (or_introl eq_refl)) as Hb.
    simpl app in Hb. rewrite Hb.
    apply string_of_list_ascii_of_string.
  - apply String.eqb_neq in Ed.
    unfold Clean, bytes at 1. rewrite list_ascii_of_string_of_list_ascii.
    rewrite !bytes_app.
    destruct (clean_bytes_last (bytes dir) (bytes name)) as (pre & Heq & Hpre);
      try assumption.
    { intros E. apply Ed. apply bytes_inj. exact E. }
    change (bytes "/") with [Separator]. simpl app at 2.
    rewrite Heq, base_bytes_last by assumption.
    apply string_of_list_ascii_of_string.
Qed.

End FilepathFacts.

(** * Facts about the watcher *)

Section WatcherFacts.

Import Fsnotify Watcher.

(** ** The filter of the loop *)

Lemma land_flag_bit (op : Z) (n : Z) :
  (0 <= n)%Z -> (Z.land op (Z.shiftl 1 n) =? Z.shiftl 1 n)%Z = Z.testbit op n.
Proof.
  intros Hn. rewrite Z.shiftl_1_l.
  destruct (Z.testbit op n) eqn:Hb.
  - apply Z.eqb_eq. apply Z.bits_inj'. intros m Hm.
    rewrite Z.land_spec. destruct (Z.eq_dec m n) as [->|Hne].
    + rewrite Hb, Z.pow2_bits_true by assumption. reflexivity.
    + rewrite Z.pow2_bits_false by lia. apply andb_false_r.
  - apply Z.eqb_neq. intros E.
    apply (f_equal (fun z => Z.testbit z n)) in E.
    rewrite Z.land_spec, Hb, Z.pow2_bits_true in E by assumption. discriminate.
Qed.

Lemma eligible_bits (event : Event) :
  eligible event = Z.testbit (Op event) 0 || Z.testbit (Op event) 2.
Proof.
  unfold eligible, Create, Remove.
  now rewrite !land_flag_bit by lia.
Qed.

Lemma handleEvent_name (event : Event) (logs : list logline) (name : string) :
  handleEvent event = (logs, Some name) ->
  eligible event = true /\ name = Filepath.Base (Name event) /\ name <> ignoreDir.
Proof.
  unfold handleEvent. destruct (eligible event); [|discriminate].
  destruct (String.eqb (Filepath.Base (Name event)) ignoreDir) eqn:E; simpl; [discriminate|].
  intros [= <- <-]. apply String.eqb_neq in E. auto.
Qed.

(** ** What [init] and [start] leave behind *)

Lemma init_files (files : list FileInfo) (s : World) :
  init (inl files) s =
  (set_senders (senders s ++ initEvents (path (w s)) files)
     (wgAdd (Z.of_nat (length (initEvents (path (w s)) files))) s), None).
Proof.
  unfold init. f_equal. revert s.
  induction files as [|file files IH]; intros s.
  - destruct s as [[? ? ? ?] ? ? ? ? ? ? ? ? ? ? ? ?]. cbn.
    unfold set_senders, wgAdd, set_w. cbn. now rewrite app_nil_r, Z.add_0_r.
  - cbn [fold_left]. unfold initEvents. cbn [List.filter]. fold (scanned file).
    destruct (scanned file).
    + rewrite IH. destruct s as [[? ? ? ?] ? ? ? ? ? ? ? ? ? ? ? ?].
      unfold set_senders, wgAdd, goInject, set_w, initEvents. cbn.
      rewrite <- app_assoc. cbn [app length].
      rewrite Nat2Z.inj_succ.
      replace (wg0 + 1 + Z.of_nat (length (map (fun file0 : FileInfo =>
                 {| Name := Filepath.Join path0 (FName file0); Op := Create |})
                 (List.filter scanned files))))%Z
        with (wg0 + Z.succ (Z.of_nat (length (map (fun file0 : FileInfo =>
                 {| Name := Filepath.Join path0 (FName file0); Op := Create |})
                 (List.filter scanned files)))))%Z by lia.
      reflexivity.
    + apply IH.
Qed.

Lemma start_unfold (nw : option error) (rd : list FileInfo + error)
    (add : option error) (s : World) :
  start nw rd add s =
  match nw with
  | Some err =>
      (set_stopCh (Some ChOpen) s, Some ("failed to start plugin fsWatcher, err: " ++ err))
  | None =>
      let s1 := set_loop LoopSelect
                  (wgAdd 1 (set_fsWatcher (Some Open) (set_stopCh (Some ChOpen) s))) in
      match rd with
      | inr err => (s1, Some err)
      | inl files =>
          (set_attached (match add with None => true | Some _ => false end)
             (set_senders (senders s ++ initEvents (path (w s)) files)
                (wgAdd (Z.of_nat (length (initEvents (path (w s)) files))) s1)),
           add)
      end
  end.
Proof.
  unfold start. destruct nw; [reflexivity|].
  destruct rd as [files|err]; [|reflexivity].
  rewrite init_files. reflexivity.
Qed.

(** ** The invariant *)

Lemma Inv_new (p : string) : Inv (newCSIWatcher p).
Proof. constructor; cbn; try done; auto. Qed.

Lemma loopCount_nonneg (pc : loop_pc) : (0 <= loopCount pc)%Z.
Proof. destruct pc; cbn; lia. Qed.

Ltac inv_close :=
  try assumption;
  try solve [intros; subst; intuition (try congruence; try lia)];
  try solve [intros ? Hin_stop;
             match goal with
             | H : forall t, _ = CallerInStop t -> _ |- _ =>
                 destruct (H _ Hin_stop) as (? & ? & ? & ?)
             end;
             repeat split; auto; try congruence; try lia].

Ltac inv_fields :=
  match goal with
  | HI : Inv ?s |- _ => pose proof (loopCount_nonneg (loop s)); destruct HI
  end;
  constructor; cbn in *; unfold tracked in *; cbn in *.

Lemma step_Inv (l : label) (s s' : World) : Inv s -> step l s = Some s' -> Inv s'.
Proof.
  intros HI Hs. unfold step in Hs.
  destruct (crashed s) eqn:Hc; [discriminate|].
  destruct l.
  - (* CallStart *)
    destruct (caller s) eqn:Hcl; [|discriminate].
    destruct (startRet s) eqn:Hsr; [discriminate|].
    rewrite start_unfold in Hs.
    pose proof (inv_startRet s HI Hsr) as Hch.
    destruct (inv_fresh s HI Hch) as (_ & Hfs & Hdr & Hsret & _).
    destruct (inv_nil s HI Hfs) as (Hlp & Hsd & Hfin).
    pose proof (inv_wg s HI) as Hwg. unfold tracked in Hwg.
    rewrite Hlp, Hsd, Hfin in Hwg. cbn in Hwg.
    pose proof (inv_calls s HI) as Hcalls.
    pose proof (inv_nocalls s HI Hfs) as Hnc.
    pose proof (inv_unattached s HI Hfs) as Hat.
    destruct nw as [err|].
    + injection Hs as <-. constructor; cbn; unfold tracked; cbn;
        rewrite ?Hlp, ?Hsd, ?Hfin, ?Hfs, ?Hdr, ?Hsret, ?Hcl; cbn;
        try done; auto; try (intros; congruence).
    + destruct rd as [files|err]; cbn in Hs; injection Hs as <-;
        constructor; cbn; unfold tracked; cbn;
        rewrite ?Hlp, ?Hsd, ?Hfin, ?Hfs, ?Hdr, ?Hsret, ?Hcl, ?Hwg; cbn;
        try done; auto; try (intros; congruence); try lia.
  - (* CallStop *)
    destruct (caller s) eqn:Hcl; [|discriminate]. injection Hs as <-.
    unfold stop. destruct (stopCh (w s)) as [[|]|] eqn:Hch.
    + assert (Hsret : stopRet s = None).
      { destruct (stopRet s) eqn:E; [|reflexivity].
        destruct (inv_returned s HI) as [? _]; congruence. }
      inv_fields; inv_close.
      intros t0 [= <-]. repeat split; auto; try congruence. lia.
    + inv_fields; inv_close.
    + inv_fields; inv_close.
  - (* LoopRecvInject *)
    destruct (loop s) eqn:Hlp; try discriminate.
    destruct (senders s !! i) as [event|] eqn:Hi; [|discriminate].
    injection Hs as <-.
    assert (Hlen : length (senders s) = S (length (delete i (senders s)))).
    { pose proof (lookup_lt_Some _ _ _ Hi). rewrite length_delete by eauto. lia. }
    unfold loopEvent. destruct (handleEvent event) as [logs [name|]] eqn:He.
    + apply handleEvent_name in He as (_ & _ & Hname).
      inv_fields; rewrite ?Hlp in *; cbn in *; inv_close.
      rewrite Forall_app. split; [assumption|]. now constructor.
    + inv_fields; rewrite ?Hlp in *; cbn in *; inv_close.
  - (* LoopRecvEvent *)
    destruct (loop s) eqn:Hlp; try discriminate.
    destruct (fsWatcher (w s)) as [[| |]|] eqn:Hfs; try discriminate.
    destruct (attached s); [|discriminate]. injection Hs as <-.
    unfold loopEvent. destruct (handleEvent event) as [logs [name|]] eqn:He.
    + apply handleEvent_name in He as (_ & _ & Hname).
      inv_fields; rewrite ?Hlp, ?Hfs in *; cbn in *; inv_close.
      rewrite Forall_app. split; [assumption|]. now constructor.
    + inv_fields; rewrite ?Hlp, ?Hfs in *; cbn in *; inv_close.
  - (* LoopRecvError *)
    destruct (loop s) eqn:Hlp; try discriminate.
    destruct (fsWatcher (w s)) as [[| |]|] eqn:Hfs; try discriminate.
    injection Hs as <-. destruct err; [|assumption].
    inv_fields; rewrite ?Hlp, ?Hfs in *; cbn in *; inv_close.
  - (* LoopRecvStop *)
    destruct (loop s) eqn:Hlp; try discriminate.
    destruct (stopCh (w s)) as [[|]|] eqn:Hch; try discriminate.
    injection Hs as <-.
    inv_fields; rewrite ?Hlp, ?Hch in *; cbn in *; inv_close.
  - (* HandlerReturn *)
    destruct (loop s) eqn:Hlp; try discriminate. injection Hs as <-.
    inv_fields; rewrite ?Hlp in *; cbn in *; inv_close.
  - (* InjectorDone *)
    destruct (finishing s) as [|k] eqn:Hfin; try discriminate. injection Hs as <-.
    inv_fields; rewrite ?Hfin in *; cbn in *; inv_close.
  - (* DrainWake *)
    destruct (drainCh s) as [[|]|] eqn:Hdr; try discriminate.
    destruct (wg (w s) =? 0)%Z eqn:Hz; [|discriminate]. injection Hs as <-.
    apply Z.eqb_eq in Hz.
    inv_fields; rewrite ?Hdr in *; cbn in *; inv_close.
  - (* StopDrained *)
    destruct (caller s) as [|t0] eqn:Hcl; try discriminate.
    destruct (drainCh s) as [[|]|] eqn:Hdr; try discriminate.
    injection Hs as <-.
    destruct (inv_instop s HI t0 Hcl) as (Hsret & Hch & _ & _).
    pose proof (inv_drain s HI Hdr) as Hz.
    pose proof (inv_wg s HI) as Hwg. unfold tracked in Hwg.
    unfold stop_drained.
    destruct (inv_held s HI Hsret) as [Hfs|Hfs]; rewrite Hfs.
    + inv_fields; rewrite ?Hcl, ?Hdr in *; cbn in *; inv_close.
    + assert (Hlp : loop s = LoopExited).
      { destruct (loop s) eqn:E; cbn in Hwg; try lia; [|reflexivity].
        rewrite (inv_started s HI E) in Hfs. discriminate. }
      destruct cl as [e|]; cbn;
        inv_fields; rewrite ?Hcl, ?Hdr, ?Hlp in *; cbn in *; inv_close.
  - (* StopTimeout *)
    destruct (caller s) as [|t0] eqn:Hcl; try discriminate.
    destruct (t0 + stopTimeout <=? now s)%Z; [|discriminate]. injection Hs as <-.
    destruct (inv_instop s HI t0 Hcl) as (Hsret & Hch & _ & _).
    unfold stop_timeout.
    inv_fields; rewrite ?Hcl in *; cbn in *; inv_close.
  - (* Tick *)
    destruct (0 <? d)%Z eqn:Hd; [|discriminate]. injection Hs as <-.
    inv_fields; auto.
    intros t0 Ht. destruct (inv_instop0 t0 Ht) as (? & ? & ? & ?).
    repeat split; auto. lia.
Qed.

Lemma run_Inv (ls : list label) (s s' : World) : Inv s -> run ls s = Some s' -> Inv s'.
Proof.
  revert s. induction ls as [|l ls IH]; intros s HI Hr; cbn in Hr.
  - now injection Hr as <-.
  - destruct (step l s) as [s1|] eqn:Hs; [|discriminate].
    eapply IH; [|exact Hr]. eapply step_Inv; eassumption.
Qed.

Lemma reachable_Inv (p : string) (s : World) : reachable p s -> Inv s.
Proof. intros [ls Hr]. eapply run_Inv; [apply Inv_new | exact Hr]. Qed.

Lemma run_app (ls1 ls2 : list label) (s : World) :
  run (ls1 ++ ls2)%list s = match run ls1 s with Some s1 => run ls2 s1 | None => None end.
Proof.
  revert s. induction ls1 as [|l ls1 IH]; intros s; cbn; [reflexivity|].
  destruct (step l s); [apply IH | reflexivity].
Qed.

Lemma reachable_step (p : string) (l : label) (s s' : World) :
  reachable p s -> step l s = Some s' -> reachable p s'.
Proof.
  intros [ls Hr] Hs. exists (ls ++ [l])%list. rewrite run_app, Hr. cbn. now rewrite Hs.
Qed.

(** The counter of the WaitGroup is never negative, so [Done] never panics. *)
Lemma wg_nonneg (p : string) (s : World) : reachable p s -> (0 <= wg (w s))%Z.
Proof.
  intros Hr. apply reachable_Inv in Hr. rewrite (inv_wg s Hr). unfold tracked.
  pose proof (loopCount_nonneg (loop s)). lia.
Qed.

(** ** What one step does to the senders and to the calls of the handler *)

Lemma loopEvent_effect (o : origin) (event : Event) (s : World) :
  path (w (loopEvent o event s)) = path (w s) /\
  senders (loopEvent o event s) = senders s /\
  calls (loopEvent o event s) = (calls s ++ callOf o event)%list /\
  startRet (loopEvent o event s) = startRet s.
Proof.
  unfold loopEvent, callOf. destruct (handleEvent event) as [logs [name|]]; cbn.
  - auto.
  - now rewrite app_nil_r.
Qed.

Lemma step_effect (l : label) (s s' : World) :
  step l s = Some s' ->
  path (w s') = path (w s) /\
  match l with
  | CallStart nw rd _ =>
      startRet s = None /\ startRet s' <> None /\ calls s' = calls s /\
      senders s' = match nw, rd with
                   | None, inl files => (senders s ++ initEvents (path (w s)) files)%list
                   | _, _ => senders s
                   end
  | LoopRecvInject i =>
      startRet s' = startRet s /\
      exists event, senders s !! i = Some event /\
                    senders s' = delete i (senders s) /\
                    calls s' = (calls s ++ callOf Injected event)%list
  | LoopRecvEvent event =>
      startRet s' = startRet s /\ senders s' = senders s /\
      calls s' = (calls s ++ callOf Live event)%list
  | _ => startRet s' = startRet s /\ senders s' = senders s /\ calls s' = calls s
  end.
Proof.
  unfold step. destruct (crashed s); [discriminate|].
  destruct l; intros Hs.
  - destruct (caller s); [|discriminate].
    destruct (startRet s) eqn:Hsr; [discriminate|].
    rewrite start_unfold in Hs.
    destruct nw; [injection Hs as <-; cbn; auto|].
    destruct rd; cbn in Hs; injection Hs as <-; cbn; auto.
  - destruct (caller s); [|discriminate]. injection Hs as <-.
    unfold stop. destruct (stopCh (w s)) as [[|]|]; cbn; auto.
  - destruct (loop s); try discriminate.
    destruct (senders s !! i) as [event|] eqn:Hi; [|discriminate].
    injection Hs as <-.
    destruct (loopEvent_effect Injected event
                (set_finishing (S (finishing s)) (set_senders (delete i (senders s)) s)))
      as (Hp & Hsd & Hcs & Hsr).
    rewrite Hp, Hsd, Hcs, Hsr. cbn. split; [reflexivity|]. split; [reflexivity|].
    exists event. auto.
  - destruct (loop s); try discriminate.
    destruct (fsWatcher (w s)) as [[| |]|]; try discriminate.
    destruct (attached s); [|discriminate]. injection Hs as <-.
    destruct (loopEvent_effect Live event s) as (Hp & Hsd & Hcs & Hsr). auto.
  - destruct (loop s); try discriminate.
    destruct (fsWatcher (w s)) as [[| |]|]; try discriminate.
    injection Hs as <-. destruct err; cbn; auto.
  - destruct (loop s); try discriminate.
    destruct (stopCh (w s)) as [[|]|]; try discriminate.
    injection Hs as <-. cbn. auto.
  - destruct (loop s); try discriminate. injection Hs as <-. cbn. auto.
  - destruct (finishing s); try discriminate. injection Hs as <-. cbn. auto.
  - destruct (drainCh s) as [[|]|]; try discriminate.
    destruct (wg (w s) =? 0)%Z; [|discriminate]. injection Hs as <-. cbn. auto.
  - destruct (caller s); try discriminate.
    destruct (drainCh s) as [[|]|]; try discriminate. injection Hs as <-.
    unfold stop_drained. destruct (fsWatcher (w s)) as [h|]; [|cbn; auto].
    destruct (Close h cl) as [h' [e|]]; cbn; auto.
  - destruct (caller s); try discriminate.
    destruct (_ <=? _)%Z; [|discriminate]. injection Hs as <-. cbn. auto.
  - destruct (0 <? d)%Z; [|discriminate]. injection Hs as <-. cbn. auto.
Qed.

Lemma initEvents_senderOf (p : string) (files : list FileInfo) :
  Forall (fun file => Filepath.entry_name (FName file)) files ->
  Forall (senderOf p) (initEvents p files).
Proof.
  intros Hnames. unfold initEvents. apply Forall_forall. intros event Hin.
  apply list_elem_of_In in Hin.
  apply in_map_iff in Hin as (file & <- & Hf).
  apply filter_In in Hf as [Hfile Hsc]. unfold scanned in Hsc.
  apply andb_prop in Hsc as [_ Hn]. apply negb_true_iff, String.eqb_neq in Hn.
  rewrite Forall_forall in Hnames.
  exists (FName file). split; [|auto].
  apply Hnames. now apply list_elem_of_In.
Qed.

Lemma reachable_path (p : string) (s : World) : reachable p s -> path (w s) = p.
Proof.
  intros [ls Hr].
  assert (H0 : path (w (newCSIWatcher p)) = p) by reflexivity.
  revert H0 Hr. generalize (newCSIWatcher p).
  induction ls as [|l ls IH]; intros s0 H0 Hr; cbn in Hr.
  - now injection Hr as <-.
  - destruct (step l s0) as [s1|] eqn:Hs; [|discriminate].
    apply (IH s1); [|exact Hr]. apply step_effect in Hs as [Hp _]. congruence.
Qed.

Lemma step_senders (p : string) (l : label) (s s' : World) :
  listed l ->
  path (w s) = p /\ Forall (senderOf p) (senders s) ->
  step l s = Some s' ->
  path (w s') = p /\ Forall (senderOf p) (senders s').
Proof.
  intros Hl [Hp Hall] Hs. apply step_effect in Hs as [Hp' He].
  split; [congruence|].
  destruct l; try (destruct He as (_ & -> & _); assumption).
  - destruct He as (_ & _ & _ & ->).
    destruct nw; [assumption|]. destruct rd; [|assumption].
    apply Forall_app. split; [assumption|]. rewrite Hp.
    now apply initEvents_senderOf.
  - destruct He as (_ & event & _ & -> & _). now apply Forall_delete.
Qed.

Lemma run_senders (p : string) (ls : list label) (s : World) :
  run ls (newCSIWatcher p) = Some s -> Forall listed ls ->
  Forall (senderOf p) (senders s).
Proof.
  intros Hr Hls.
  assert (H0 : path (w (newCSIWatcher p)) = p /\
               Forall (senderOf p) (senders (newCSIWatcher p))).
  { split; [reflexivity | constructor]. }
  revert H0 Hr. generalize (newCSIWatcher p).
  induction ls as [|l ls IH]; intros s0 H0 Hr; cbn in Hr.
  - injection Hr as <-. apply H0.
  - apply Forall_cons in Hls as [Hl Hls].
    destruct (step l s0) as [s1|] eqn:Hs; [|discriminate].
    apply (IH Hls s1); [|exact Hr]. eapply step_senders; eassumption.
Qed.

(** The handler would be called with the name of the entry a sender stands
    for, which is not the reserved one. *)
Lemma senderOf_leaf (p : string) (event : Event) :
  senderOf p event -> leaf event <> ignoreDir.
Proof.
  intros (name & Hname & Hne & ->). unfold leaf. cbn.
  now rewrite Base_Join.
Qed.

(** ** The initial scan *)

Lemma initEvents_leaf (p : string) (files : list FileInfo) :
  Forall (fun file => Filepath.entry_name (FName file)) files ->
  map leaf (initEvents p files) = scannedNames files /\
  Forall dispatched (initEvents p files).
Proof.
  unfold initEvents, scannedNames. induction files as [|file files IH]; intros Hall.
  - split; [reflexivity | constructor].
  - apply Forall_cons in Hall as [Hname Hall]. destruct (IH Hall) as [IH1 IH2].
    cbn [List.filter]. destruct (scanned file) eqn:Hsc; [|auto].
    assert (Hleaf : leaf {| Name := Filepath.Join p (FName file); Op := Create |} = FName file).
    { unfold leaf. cbn. now apply Base_Join. }
    cbn [map]. split.
    + now rewrite Hleaf, IH1.
    + constructor; [|assumption].
      unfold dispatched. rewrite Hleaf. unfold handleEvent, eligible. cbn.
      unfold leaf in Hleaf. cbn in Hleaf. rewrite Hleaf.
      unfold scanned in Hsc. apply andb_prop in Hsc as [_ ->]. reflexivity.
Qed.

Lemma injectedNames_app (cs cs' : list call) :
  injectedNames (cs ++ cs') = (injectedNames cs ++ injectedNames cs')%list.
Proof. unfold injectedNames. now rewrite List.filter_app, map_app. Qed.

Lemma injectedNames_Live (cs : list call) (event : Event) :
  injectedNames (cs ++ callOf Live event) = injectedNames cs.
Proof.
  rewrite injectedNames_app. unfold callOf.
  destruct (snd (handleEvent event)); cbn; now rewrite app_nil_r.
Qed.

Lemma injectedNames_Injected (cs : list call) (event : Event) :
  dispatched event ->
  injectedNames (cs ++ callOf Injected event) = (injectedNames cs ++ [leaf event])%list.
Proof.
  intros Hd. rewrite injectedNames_app. unfold callOf. now rewrite Hd.
Qed.

Lemma step_scanInv (names : list string) (l : label) (s s' : World) :
  scanInv names s -> step l s = Some s' -> scanInv names s'.
Proof.
  intros (Hsr & Hall & Hperm) Hs. apply step_effect in Hs as [_ He].
  destruct l;
    try solve [destruct He as (Hsr' & Hsd & Hcs); unfold scanInv;
               rewrite Hsr', Hsd, Hcs; auto].
  - destruct He as (Hnone & _). contradiction.
  - destruct He as (Hsr' & event & Hi & Hsd & Hcs). unfold scanInv.
    rewrite Hsr', Hsd, Hcs. split; [assumption|]. split; [now apply Forall_delete|].
    assert (Hd : dispatched event).
    { rewrite Forall_forall in Hall. apply Hall. eapply list_elem_of_lookup_2. exact Hi. }
    rewrite injectedNames_Injected by assumption.
    rewrite <- Hperm, <- app_assoc. apply Permutation_app_head. cbn.
    change (leaf event :: map leaf (delete i (senders s)))
      with (map leaf (event :: delete i (senders s))).
    apply Permutation_map. symmetry. now apply delete_Permutation.
  - destruct He as (Hsr' & Hsd & Hcs). unfold scanInv.
    rewrite Hsr', Hsd, Hcs, injectedNames_Live. auto.
Qed.

Lemma run_scanInv (names : list string) (ls : list label) (s s' : World) :
  scanInv names s -> run ls s = Some s' -> scanInv names s'.
Proof.
  revert s. induction ls as [|l ls IH]; intros s HI Hr; cbn in Hr.
  - now injection Hr as <-.
  - destruct (step l s) as [s1|] eqn:Hs; [|discriminate].
    eapply IH; [|exact Hr]. eapply step_scanInv; eassumption.
Qed.

Lemma drain_senders (n : nat) (s : World) :
  crashed s = None -> loop s = LoopSelect -> length (senders s) = n ->
  Forall dispatched (senders s) ->
  exists s', run (drainSchedule n) s = Some s' /\ senders s' = [] /\
             loop s' = LoopSelect /\ crashed s' = None /\
             injectedNames (calls s') =
               (injectedNames (calls s) ++ map leaf (senders s))%list.
Proof.
  revert s. induction n as [|n IH]; intros s Hc Hlp Hlen Hall.
  - exists s. destruct (senders s); [|discriminate]. cbn.
    now rewrite app_nil_r.
  - destruct (senders s) as [|event rest] eqn:Hsd; [discriminate|].
    apply Forall_cons in Hall as [Hd Hall].
    cbn [drainSchedule run]. unfold step at 1. rewrite Hc, Hlp, Hsd.
    cbn [lookup list_lookup delete list_delete].
    set (s1 := loopEvent Injected event (set_finishing (S (finishing s)) (set_senders rest s))).
    assert (H1 : crashed s1 = None /\ loop s1 = LoopInHandler (leaf event) /\
                 senders s1 = rest /\
                 calls s1 = (calls s ++ [{| c_origin := Injected; c_name := leaf event |}])%list).
    { subst s1. unfold loopEvent. unfold dispatched in Hd.
      destruct (handleEvent event) as [logs h]. cbn in Hd. subst h. cbn. auto. }
    destruct H1 as (Hc1 & Hlp1 & Hsd1 & Hcs1).
    unfold step at 1. rewrite Hc1, Hlp1.
    destruct (IH (set_loop LoopSelect (wgDone s1))) as (s' & Hrun & Hs' & Hl' & Hc' & Hn').
    + exact Hc1.
    + reflexivity.
    + cbn. rewrite Hsd1. cbn in Hlen. lia.
    + cbn. now rewrite Hsd1.
    + exists s'. split; [exact Hrun|]. repeat split; try assumption.
      rewrite Hn'. cbn [calls set_loop wgDone wgAdd set_w senders].
      rewrite Hcs1, Hsd1, injectedNames_app. cbn. now rewrite <- app_assoc.
Qed.

Lemma NoDup_map_filter {A B} (f : A -> B) (g : A -> bool) (l : list A) :
  List.NoDup (map f l) -> List.NoDup (map f (List.filter g l)).
Proof.
  induction l as [|x l IH]; cbn; intros Hnd; [constructor|].
  inversion Hnd as [|? ? Hnin Hnd']; subst.
  destruct (g x); [|auto]. cbn. constructor; [|auto].
  intros Hin. apply Hnin. apply in_map_iff in Hin as (y & Hy & Hin).
  apply in_map_iff. exists y. split; [assumption|].
  apply filter_In in Hin. tauto.
Qed.

(** C4, as the code has it: [start] starts exactly one sender per directory
    listed in [files] that does not have the reserved name.  In every later
    state each such directory is either still with its blocked sender or was
    handed to the handler under its own leaf name, once and not twice, and
    the handler is called for nothing else on behalf of the scan.  The call
    is made when the loop receives the event of the sender: the run in which
    the loop takes the pending events one by one calls the handler exactly
    once per such directory, in the order listed. *)
Theorem preexisting_dirs_dispatched_once
    (p : string) (files : list FileInfo) (add : option error)
    (s_pre s0 : World) (ls : list label) (s : World) :
  reachable p s_pre ->
  Forall (fun file => Filepath.entry_name (FName file)) files ->
  List.NoDup (map FName files) ->
  step (CallStart None (inl files) add) s_pre = Some s0 ->
  run ls s0 = Some s ->
  Permutation (injectedNames (calls s) ++ map leaf (senders s)) (scannedNames files) /\
  (forall file, In file files -> IsDir file = true -> FName file <> ignoreDir ->
     (count_occ string_dec (injectedNames (calls s)) (FName file) +
      count_occ string_dec (map leaf (senders s)) (FName file) = 1)%nat) /\
  (senders s = [] -> Permutation (injectedNames (calls s)) (scannedNames files)) /\
  (exists s', run (drainSchedule (length (senders s0))) s0 = Some s' /\
              senders s' = [] /\ injectedNames (calls s') = scannedNames files).
Proof.
  intros Hpre Hnames Hnd Hstart Hrun.
  pose proof (reachable_Inv _ _ Hpre) as HI.
  pose proof (reachable_path _ _ Hpre) as Hp.
  pose proof Hstart as Hs0. unfold step in Hs0.
  destruct (crashed s_pre) eqn:Hc; [discriminate|].
  destruct (caller s_pre); [|discriminate].
  destruct (startRet s_pre) eqn:Hsr; [discriminate|].
  rewrite start_unfold in Hs0. cbn in Hs0. injection Hs0 as Hs0.
  pose proof (inv_startRet _ HI Hsr) as Hch.
  destruct (inv_fresh _ HI Hch) as (_ & Hfs & _).
  destruct (inv_nil _ HI Hfs) as (_ & Hsd & _).
  pose proof (inv_nocalls _ HI Hfs) as Hnc.
  rewrite Hsd, Hp in Hs0. cbn in Hs0.
  destruct (initEvents_leaf p files Hnames) as [Hleaf Hdisp].
  assert (H0 : senders s0 = initEvents p files /\ calls s0 = [] /\
               loop s0 = LoopSelect /\ crashed s0 = None /\ startRet s0 <> None).
  { subst s0. cbn. rewrite Hnc, Hc. repeat split; try reflexivity. discriminate. }
  destruct H0 as (Hsd0 & Hcs0 & Hlp0 & Hc0 & Hsr0).
  assert (Hinv0 : scanInv (scannedNames files) s0).
  { unfold scanInv. rewrite Hsd0, Hcs0, Hleaf. cbn. auto. }
  destruct (run_scanInv _ _ _ _ Hinv0 Hrun) as (_ & _ & Hperm).
  split; [exact Hperm|]. split; [|split].
  - intros file Hin Hdir Hne.
    rewrite <- count_occ_app.
    rewrite (proj1 (Permutation_count_occ string_dec _ _) Hperm).
    apply NoDup_count_occ'.
    + unfold scannedNames. now apply NoDup_map_filter.
    + unfold scannedNames. apply in_map. apply filter_In. split; [assumption|].
      unfold scanned. rewrite Hdir. cbn. apply negb_true_iff.
      now apply String.eqb_neq.
  - intros Hnil. rewrite Hnil in Hperm. cbn in Hperm. now rewrite app_nil_r in Hperm.
  - destruct (drain_senders (length (senders s0)) s0 Hc0 Hlp0 eq_refl)
      as (s' & Hr' & Hs' & _ & _ & Hn').
    { rewrite Hsd0. exact Hdisp. }
    exists s'. split; [exact Hr'|]. split; [exact Hs'|].
    rewrite Hn', Hcs0, Hsd0. cbn. exact Hleaf.
Qed.

Lemma preexisting_dirs_dispatched_once_witness :
  Permutation
    (injectedNames (calls (after [LoopRecvInject 1; HandlerReturn]
                             (after [CallStart None (inl pluginDirs) None] session))) ++
     map leaf (senders (after [LoopRecvInject 1; HandlerReturn]
                          (after [CallStart None (inl pluginDirs) None] session))))
    (scannedNames pluginDirs).
Proof.
  refine (proj1 (preexisting_dirs_dispatched_once pluginsPath pluginDirs None session
                   (after [CallStart None (inl pluginDirs) None] session)
                   [LoopRecvInject 1; HandlerReturn] _ _ _ _ _ _)).
  - exists []. reflexivity.
  - repeat constructor; discriminate.
  - repeat constructor; cbn; intuition discriminate.
  - vm_compute. reflexivity.
  - vm_compute. reflexivity.
Defined.

Example plugin_dirs_scan :
  injectedNames (calls (after (CallStart None (inl pluginDirs) None :: drainSchedule 2) session))
  = ["A"; "B"].
Proof. vm_compute. reflexivity. Qed.

(** ** The reserved name *)

(** C6: in every state of a session the handler has never been called with
    the reserved name, and the name is filtered at both stages.  [init]
    starts a sender only for an entry that is a directory and does not have
    the reserved name, so that, the listing carrying the names of directory
    entries, no sender ever stands for that name: the leaf name of the event
    it sends is not the reserved one.  And the loop leaves the handler
    uncalled on every event whose leaf name is the reserved one, whatever its
    kind and wherever it comes from. *)
Theorem reserved_name_never_dispatched (p : string) (ls : list label) (s : World) :
  run ls (newCSIWatcher p) = Some s ->
  Forall (fun c => c_name c <> ignoreDir) (calls s) /\
  (Forall listed ls ->
   Forall (fun event => senderOf p event /\ leaf event <> ignoreDir) (senders s)) /\
  (forall (files : list FileInfo) (s0 : World),
     exists new,
       senders (fst (init (inl files) s0)) = (senders s0 ++ new)%list /\
       Forall (fun event =>
                 exists file, In file files /\ IsDir file = true /\
                              FName file <> ignoreDir /\
                              event = {| Name := Filepath.Join (path (w s0)) (FName file);
                                         Op := Create |}) new) /\
  (forall (o : origin) (event : Event),
     Filepath.Base (Name event) = ignoreDir ->
     calls (loopEvent o event s) = calls s /\ loop (loopEvent o event s) = loop s).
Proof.
  intros Hrun. split; [|split; [|split]].
  - assert (Hr : reachable p s) by (exists ls; exact Hrun).
    apply reachable_Inv in Hr. apply (inv_calls s Hr).
  - intros Hls. pose proof (run_senders p ls s Hrun Hls) as Hall.
    eapply Forall_impl; [exact Hall|]. cbn. intros event Hev.
    split; [exact Hev|]. eapply senderOf_leaf. exact Hev.
  - intros files s0. rewrite init_files. cbn.
    exists (initEvents (path (w s0)) files). split; [reflexivity|].
    unfold initEvents. apply Forall_forall. intros event Hin.
    apply list_elem_of_In in Hin.
    apply in_map_iff in Hin as (file & <- & Hf).
    apply filter_In in Hf as [Hfile Hsc]. unfold scanned in Hsc.
    apply andb_prop in Hsc as [Hdir Hn]. apply negb_true_iff, String.eqb_neq in Hn.
    exists file. auto.
  - intros o event Hb. unfold loopEvent, handleEvent. rewrite Hb.
    destruct (eligible event); cbn; auto.
Qed.

Lemma reserved_name_never_dispatched_witness :
  run reservedRun (newCSIWatcher pluginsPath) = Some (after reservedRun session) /\
  Forall (fun c => c_name c <> ignoreDir) (calls (after reservedRun session)) /\
  Forall (fun event => senderOf pluginsPath event /\ leaf event <> ignoreDir)
    (senders (after reservedRun session)).
Proof.
  assert (Hr : run reservedRun (newCSIWatcher pluginsPath) = Some (after reservedRun session)).
  { vm_compute. reflexivity. }
  assert (Hls : Forall listed reservedRun).
  { repeat constructor; discriminate. }
  destruct (reserved_name_never_dispatched _ _ _ Hr) as (Hcalls & Hsenders & _).
  exact (conj Hr (conj Hcalls (Hsenders Hls))).
Defined.

Example reserved_name_run :
  calls (after reservedRun session) = [{| c_origin := Injected; c_name := "A" |}].
Proof. vm_compute. reflexivity. Qed.

(** ** The kinds of events that reach the handler *)

Lemma eligible_union (name : string) (rest : Z) :
  eligible {| Name := name; Op := Z.lor Create rest |} = true /\
  eligible {| Name := name; Op := Z.lor Remove rest |} = true.
Proof.
  rewrite !eligible_bits. cbn [Op]. rewrite !Z.lor_spec.
  split; destruct (Z.testbit rest 0); reflexivity.
Qed.

(** C5: the loop hands a received record on exactly when bit 0 (Create) or
    bit 2 (Remove) of its kind is set, so a union containing either flag
    passes; a record of any other kind only adds the line "Ignore event" to
    the log, leaves the handler uncalled and the loop in its select. *)
Theorem create_or_remove_reach_handler (o : origin) (event : Event) (s : World) :
  eligible event = Z.testbit (Op event) 0 || Z.testbit (Op event) 2 /\
  (forall rest : Z,
     eligible {| Name := Name event; Op := Z.lor Create rest |} = true /\
     eligible {| Name := Name event; Op := Z.lor Remove rest |} = true) /\
  (if Z.testbit (Op event) 0 || Z.testbit (Op event) 2 then
     klog (loopEvent o event s) <> (klog s ++ [Infof_IgnoreEvent event])%list /\
     (if String.eqb (Filepath.Base (Name event)) ignoreDir
      then calls (loopEvent o event s) = calls s
      else calls (loopEvent o event s) =
             (calls s ++ [{| c_origin := o; c_name := Filepath.Base (Name event) |}])%list /\
           loop (loopEvent o event s) = LoopInHandler (Filepath.Base (Name event)))
   else
     calls (loopEvent o event s) = calls s /\
     klog (loopEvent o event s) = (klog s ++ [Infof_IgnoreEvent event])%list /\
     loop (loopEvent o event s) = loop s /\
     wg (w (loopEvent o event s)) = wg (w s)).
Proof.
  split; [apply eligible_bits|]. split; [intros rest; apply eligible_union|].
  rewrite <- eligible_bits. unfold loopEvent, handleEvent.
  destruct (eligible event).
  - destruct (String.eqb (Filepath.Base (Name event)) ignoreDir); cbn.
    + split; [|reflexivity]. intros E. apply app_inv_head in E. discriminate.
    + split; [|split; reflexivity]. intros E. apply app_inv_head in E. discriminate.
  - cbn. repeat split. lia.
Qed.

Example write_event_dropped :
  handleEvent {| Name := "/var/lib/kubelet/plugins/A"; Op := Write |} =
  ([Infof_IgnoreEvent {| Name := "/var/lib/kubelet/plugins/A"; Op := Write |}], None).
Proof. reflexivity. Qed.

Example create_write_event_passes :
  snd (handleEvent {| Name := "/var/lib/kubelet/plugins/A"; Op := Z.lor Create Write |}) =
  Some "A".
Proof. reflexivity. Qed.

Example chmod_rename_event_dropped :
  snd (handleEvent {| Name := "/var/lib/kubelet/plugins/A"; Op := Z.lor Chmod Rename |}) = None.
Proof. reflexivity. Qed.

(** ** Misuse of [stop] *)

(** C2, as the code has it: on a session on which [start] has not run, and
    on one on which [stop] has already returned, a call of [stop] panics in
    [close(w.stopCh)] (nil channel, respectively closed channel); it returns
    nothing, and the process takes no further step. *)
Theorem stop_misuse_panics (p : string) (s : World) :
  reachable p s -> crashed s = None ->
  startRet s = None \/ stopRet s <> None ->
  exists s',
    step CallStop s = Some s' /\
    crashed s' = Some (match startRet s with
                       | None => "close of nil channel"
                       | Some _ => "close of closed channel"
                       end) /\
    stopRet s' = stopRet s /\
    forall l, step l s' = None.
Proof.
  intros Hr Hc Hmis. apply reachable_Inv in Hr.
  unfold step. rewrite Hc.
  destruct Hmis as [Hsr | Hret].
  - pose proof (inv_startRet s Hr Hsr) as Hch.
    destruct (inv_fresh s Hr Hch) as (_ & _ & _ & _ & Hcl).
    rewrite Hcl, Hsr. unfold stop. rewrite Hch.
    eexists. split; [reflexivity|]. cbn. repeat split.
  - destruct (inv_returned s Hr Hret) as [Hch Hcl].
    rewrite Hcl. unfold stop. rewrite Hch.
    destruct (startRet s) eqn:Hsr.
    + eexists. split; [reflexivity|]. cbn. repeat split.
    + rewrite (inv_startRet s Hr Hsr) in Hch. discriminate.
Qed.

Lemma stop_misuse_panics_witness :
  (reachable pluginsPath (after stoppedRun session) /\
   crashed (after stoppedRun session) = None /\
   stopRet (after stoppedRun session) <> None) /\
  exists s',
    step CallStop (after stoppedRun session) = Some s' /\
    crashed s' = Some "close of closed channel".
Proof.
  assert (Hr : reachable pluginsPath (after stoppedRun session)).
  { exists stoppedRun. vm_compute. reflexivity. }
  assert (Hc : crashed (after stoppedRun session) = None).
  { vm_compute. reflexivity. }
  assert (Hret : stopRet (after stoppedRun session) <> None).
  { vm_compute. discriminate. }
  split; [auto|].
  destruct (stop_misuse_panics _ _ Hr Hc (or_intror Hret)) as (s' & Hs & Hcr & _).
  exists s'. split; [exact Hs|]. exact Hcr.
Defined.

(** C2, as the claim has it, fails: a call of [stop] before [start] ends the
    process with the panic of closing a nil channel, and so does a second
    call of [stop] with the panic of closing a closed channel; neither
    returns an error. *)
Lemma stop_before_start_or_twice_panics :
  (crashed (after [CallStop] session) = Some "close of nil channel" /\
   stopRet (after [CallStop] session) = None) /\
  (stopRet (after stoppedRun session) = Some None /\
   crashed (after (stoppedRun ++ [CallStop]) session) = Some "close of closed channel" /\
   stopRet (after (stoppedRun ++ [CallStop]) session) = Some None).
Proof. vm_compute. repeat split. Qed.

(** What [main] runs into when [fsnotify.NewWatcher] fails: [start] has made
    the stop channel but no watcher, and the deferred [stop] ends in
    [w.fsWatcher.Close()] on a nil pointer. *)
Example stop_after_failed_NewWatcher :
  crashed (after [CallStart (Some "too many open files") (inl pluginDirs) None;
                  CallStop; DrainWake; StopDrained None] session)
  = Some "invalid memory address or nil pointer dereference".
Proof. vm_compute. reflexivity. Qed.

(** ** A failing initial scan *)

(** C3, as the code has it: when the directory cannot be listed, [start]
    returns the error of the listing as it is, no sender is started and the
    handler is not called; the fsnotify watcher [start] created stays open
    and the consumer loop stays in its select, holding its count in the
    WaitGroup. *)
Theorem start_scan_failure_keeps_source (p : string) (s s' : World)
    (err : error) (add : option error) :
  reachable p s ->
  step (CallStart None (inr err) add) s = Some s' ->
  startRet s' = Some (Some err) /\
  senders s' = [] /\ calls s' = [] /\
  fsWatcher (w s') = Some Open /\
  loop s' = LoopSelect /\ wg (w s') = 1%Z /\ attached s' = false.
Proof.
  intros Hr Hs. apply reachable_Inv in Hr.
  unfold step in Hs. destruct (crashed s); [discriminate|].
  destruct (caller s); [|discriminate].
  destruct (startRet s) eqn:Hsr; [discriminate|].
  rewrite start_unfold in Hs. cbn in Hs. injection Hs as <-.
  pose proof (inv_startRet s Hr Hsr) as Hch.
  destruct (inv_fresh s Hr Hch) as (_ & Hfs & _).
  destruct (inv_nil s Hr Hfs) as (Hlp & Hsd & Hfin).
  pose proof (inv_nocalls s Hr Hfs) as Hnc.
  pose proof (inv_wg s Hr) as Hwg. unfold tracked in Hwg.
  rewrite Hlp, Hsd, Hfin in Hwg. cbn in Hwg.
  pose proof (inv_unattached s Hr Hfs) as Hat.
  cbn. rewrite Hsd, Hnc, Hwg, Hat. repeat split.
Qed.

Lemma start_scan_failure_keeps_source_witness :
  reachable pluginsPath session /\
  fsWatcher (w (after unreadableRun session)) = Some Open /\
  loop (after unreadableRun session) = LoopSelect.
Proof.
  assert (Hr : reachable pluginsPath session) by (exists []; reflexivity).
  assert (Hs : step (CallStart None
                       (inr "open /var/lib/kubelet/plugins: no such file or directory") None)
                 session = Some (after unreadableRun session)).
  { vm_compute. reflexivity. }
  destruct (start_scan_failure_keeps_source _ _ _ _ _ Hr Hs)
    as (_ & _ & _ & Hfs & Hlp & _).
  exact (conj Hr (conj Hfs Hlp)).
Defined.

(** C3, as the claim has it, fails: after a failed listing [start] has
    returned the error, and the watcher it created has not been closed. *)
Lemma start_scan_failure_not_released :
  startRet (after unreadableRun session) =
    Some (Some "open /var/lib/kubelet/plugins: no such file or directory") /\
  senders (after unreadableRun session) = [] /\
  fsWatcher (w (after unreadableRun session)) <> Some Closed /\
  fsWatcher (w (after unreadableRun session)) = Some Open.
Proof. vm_compute. repeat split. discriminate. Qed.

(** ** The handler runs in the goroutine of the loop *)

(** While the loop is inside the handler no step takes a record, an error or
    the stop signal for it: the loop stays there until the handler returns. *)
Lemma handler_blocks_loop (p : string) (s s' : World) (name : string) (l : label) :
  reachable p s -> loop s = LoopInHandler name -> step l s = Some s' ->
  is_recv l = false /\ (l = HandlerReturn \/ loop s' = LoopInHandler name).
Proof.
  intros Hr Hlp Hs. apply reachable_Inv in Hr.
  unfold step in Hs. destruct (crashed s); [discriminate|].
  destruct l; rewrite ?Hlp in Hs; try discriminate; cbn; split; auto; right.
  - destruct (caller s); [|discriminate].
    destruct (startRet s) eqn:Hsr; [discriminate|]. exfalso.
    pose proof (inv_startRet s Hr Hsr) as Hch.
    destruct (inv_fresh s Hr Hch) as (_ & Hfs & _).
    destruct (inv_nil s Hr Hfs) as (Hlp' & _). congruence.
  - destruct (caller s); [|discriminate]. injection Hs as <-.
    unfold stop. destruct (stopCh (w s)) as [[|]|]; exact Hlp.
  - destruct (finishing s); [discriminate|]. injection Hs as <-. exact Hlp.
  - destruct (drainCh s) as [[|]|]; try discriminate.
    destruct (_ =? _)%Z; [|discriminate]. injection Hs as <-. exact Hlp.
  - destruct (caller s); try discriminate.
    destruct (drainCh s) as [[|]|]; try discriminate. injection Hs as <-.
    unfold stop_drained. destruct (fsWatcher (w s)) as [h|]; [|exact Hlp].
    destruct (Close h cl) as [h' [e|]]; exact Hlp.
  - destruct (caller s); try discriminate.
    destruct (_ <=? _)%Z; [|discriminate]. injection Hs as <-. exact Hlp.
  - destruct (0 <? d)%Z; [|discriminate]. injection Hs as <-. exact Hlp.
Qed.

(** C1 on the code: with the handler still busy with [A], the loop cannot
    take the record for [B] nor a live event, whatever time passes; it takes
    the record for [B] only after the handler has returned. *)
Theorem second_record_waits_for_handler :
  loop (after busyRun session) = LoopInHandler "A" /\
  senders (after busyRun session) =
    [{| Name := "/var/lib/kubelet/plugins/B"; Op := Create |}] /\
  step (LoopRecvInject 0) (after busyRun session) = None /\
  step (LoopRecvEvent {| Name := "/var/lib/kubelet/plugins/C"; Op := Create |})
    (after busyRun session) = None /\
  step (LoopRecvInject 0) (after (busyRun ++ [Tick (60 * Second)]) session) = None /\
  calls (after (busyRun ++ [HandlerReturn; LoopRecvInject 0]) session) =
    [{| c_origin := Injected; c_name := "A" |}; {| c_origin := Injected; c_name := "B" |}].
Proof. vm_compute. repeat split. Qed.

(** ** The stop protocol *)


(** When the channel [c] of [stop] is closed, nothing the WaitGroup tracks
    is left: the loop has returned, no sender of the scan is blocked or about
    to call Done. *)
Lemma drained_all_done (s : World) :
  Inv s -> drainCh s = Some ChClosed -> fsWatcher (w s) <> None ->
  wg (w s) = 0%Z /\ loop s = LoopExited /\ senders s = [] /\ finishing s = 0%nat.
Proof.
  intros HI Hdr Hfs. pose proof (inv_drain s HI Hdr) as Hz.
  pose proof (inv_wg s HI) as Hwg. unfold tracked in Hwg.
  pose proof (loopCount_nonneg (loop s)) as Hlc.
  split; [exact Hz|]. split; [|split].
  - destruct (loop s) eqn:E; cbn in Hwg; try lia; [|reflexivity].
    exfalso. apply Hfs. apply (inv_started s HI E).
  - destruct (senders s); [reflexivity|]. cbn in Hwg. lia.
  - lia.
Qed.





Example slow_handler_times_out :
  stopRet (after (slowRun ++ [StopTimeout]) session) =
    Some (Some "timeout on stopping watcher") /\
  fsWatcher (w (after (slowRun ++ [StopTimeout]) session)) = Some Open /\
  wg (w (after (slowRun ++ [StopTimeout]) session)) = 4%Z.
Proof. vm_compute. repeat split. Qed.

(** ** The loop is tracked *)

(** C9: [start] adds the loop to the WaitGroup before the loop runs, the loop
    gives its count back when it returns on the stop signal, and as long as
    it runs the counter is at least one, so the goroutine of [stop] that
    waits for the WaitGroup does not wake; hence the loop has returned when
    [stop] closes the watcher, and whenever [stop] has returned nil. *)
Theorem loop_is_tracked (p : string) (s : World) :
  reachable p s ->
  (forall rd add s', step (CallStart None rd add) s = Some s' ->
     loop s' = LoopSelect /\
     wg (w s') = (1 + Z.of_nat (length (senders s')))%Z) /\
  (forall s', step LoopRecvStop s = Some s' ->
     loop s' = LoopExited /\ wg (w s') = (wg (w s) - 1)%Z) /\
  (loop s <> LoopNotStarted -> loop s <> LoopExited ->
     (1 <= wg (w s))%Z /\ step DrainWake s = None) /\
  (forall cl s', step (StopDrained cl) s = Some s' -> crashed s' = None ->
     loop s = LoopExited) /\
  (stopRet s = Some None -> loop s = LoopExited /\ fsWatcher (w s) = Some Closed).
Proof.
  intros Hr. apply reachable_Inv in Hr.
  pose proof (inv_wg s Hr) as Hwg. unfold tracked in Hwg.
  split; [|split; [|split; [|split]]].
  - intros rd add s' H.
    unfold step in H. destruct (crashed s); [discriminate|].
    destruct (caller s); [|discriminate].
    destruct (startRet s) eqn:Hsr; [discriminate|].
    pose proof (inv_startRet s Hr Hsr) as Hch.
    destruct (inv_fresh s Hr Hch) as (_ & Hfs & _).
    destruct (inv_nil s Hr Hfs) as (Hlp & Hsd & Hfin).
    rewrite Hlp, Hsd, Hfin in Hwg. cbn in Hwg.
    rewrite start_unfold in H.
    destruct rd; cbn in H; injection H as <-; cbn;
      rewrite ?Hsd, ?Hwg; cbn; (split; [reflexivity | lia]).
  - intros s' H.
    unfold step in H. destruct (crashed s); [discriminate|].
    destruct (loop s); try discriminate.
    destruct (stopCh (w s)) as [[|]|]; try discriminate.
    injection H as <-. cbn. split; [reflexivity | lia].
  - intros Hns Hne. split.
    + destruct (loop s); cbn in Hwg; try contradiction; lia.
    + unfold step. destruct (crashed s); [reflexivity|].
      destruct (drainCh s) as [[|]|]; try reflexivity.
      destruct (wg (w s) =? 0)%Z eqn:E; [|reflexivity].
      apply Z.eqb_eq in E. destruct (loop s); cbn in Hwg; try contradiction; lia.
  - intros cl s' H H0.
    unfold step in H. destruct (crashed s) eqn:Hc; [discriminate|].
    destruct (caller s); try discriminate.
    destruct (drainCh s) as [[|]|] eqn:Hd; try discriminate.
    injection H as <-. unfold stop_drained in H0.
    destruct (fsWatcher (w s)) eqn:Hfs; [|discriminate].
    apply (drained_all_done s Hr Hd). congruence.
  - intros H. destruct (inv_nilret s Hr H) as (? & ? & _). auto.
Qed.

Lemma loop_is_tracked_witness :
  reachable pluginsPath (after stoppedRun session) /\
  stopRet (after stoppedRun session) = Some None /\
  loop (after stoppedRun session) = LoopExited /\
  fsWatcher (w (after stoppedRun session)) = Some Closed.
Proof.
  assert (Hr : reachable pluginsPath (after stoppedRun session)).
  { exists stoppedRun. vm_compute. reflexivity. }
  assert (Hret : stopRet (after stoppedRun session) = Some None)
    by (vm_compute; reflexivity).
  destruct (loop_is_tracked _ _ Hr) as (_ & _ & _ & _ & Hnil).
  exact (conj Hr (conj Hret (Hnil Hret))).
Defined.

(** * Further facts about the watcher *)

(** ** The counter of the WaitGroup *)

(** X1: in every state of a session the counter of the WaitGroup is the
    number of tasks that still have a Done to run (the loop, the closure it
    is in, the senders of the scan); it is never negative, and it is zero
    exactly when the loop is not running and no sender is left. *)
Theorem waitgroup_counts_tracked_tasks (p : string) (s : World) :
  reachable p s ->
  wg (w s) = tracked s /\ (0 <= wg (w s))%Z /\
  (wg (w s) = 0%Z <->
   (loop s = LoopNotStarted \/ loop s = LoopExited) /\
   senders s = [] /\ finishing s = 0%nat).
Proof.
  intros Hr. apply reachable_Inv in Hr.
  pose proof (inv_wg s Hr) as Hwg. pose proof (loopCount_nonneg (loop s)) as Hlc.
  split; [exact Hwg|]. unfold tracked in Hwg. split; [lia|]. split.
  - intros Hz. rewrite Hz in Hwg. repeat split.
    + destruct (loop s); cbn in Hwg; auto; lia.
    + destruct (senders s); [reflexivity|]. cbn in Hwg. lia.
    + lia.
  - intros (Hlp & Hsd & Hfin). rewrite Hwg, Hsd, Hfin.
    destruct Hlp as [-> | ->]; reflexivity.
Qed.

Lemma waitgroup_counts_tracked_tasks_witness :
  reachable pluginsPath (after slowRun session) /\
  wg (w (after slowRun session)) = tracked (after slowRun session).
Proof.
  assert (Hr : reachable pluginsPath (after slowRun session)).
  { exists slowRun. vm_compute. reflexivity. }
  exact (conj Hr (proj1 (waitgroup_counts_tracked_tasks _ _ Hr))).
Defined.

(** ** Once the loop has returned *)

Lemma started_of_loop (s : World) :
  Inv s -> loop s <> LoopNotStarted -> startRet s <> None.
Proof.
  intros HI Hlp Hsr. apply Hlp.
  pose proof (inv_startRet s HI Hsr) as Hch.
  destruct (inv_fresh s HI Hch) as (_ & Hfs & _).
  now destruct (inv_nil s HI Hfs).
Qed.

(** A step that is not a receive of the loop, the return of the handler or
    [start] leaves the loop where it is. *)
Lemma step_loop (l : label) (s s' : World) :
  step l s = Some s' ->
  match l with
  | CallStart _ _ _ | LoopRecvInject _ | LoopRecvEvent _ | LoopRecvStop
  | HandlerReturn => True
  | _ => loop s' = loop s
  end.
Proof.
  unfold step. destruct (crashed s); [discriminate|].
  destruct l; intros Hs; try exact I.
  - destruct (caller s); [|discriminate]. injection Hs as <-.
    unfold stop. destruct (stopCh (w s)) as [[|]|]; reflexivity.
  - destruct (loop s) eqn:E; try discriminate.
    destruct (fsWatcher (w s)) as [[| |]|]; try discriminate.
    injection Hs as <-. destruct err; cbn; congruence.
  - destruct (finishing s); try discriminate. injection Hs as <-. reflexivity.
  - destruct (drainCh s) as [[|]|]; try discriminate.
    destruct (wg (w s) =? 0)%Z; [|discriminate]. injection Hs as <-. reflexivity.
  - destruct (caller s); try discriminate.
    destruct (drainCh s) as [[|]|]; try discriminate. injection Hs as <-.
    unfold stop_drained. destruct (fsWatcher (w s)) as [h|]; [|reflexivity].
    destruct (Close h cl) as [h' [e|]]; reflexivity.
  - destruct (caller s); try discriminate.
    destruct (_ <=? _)%Z; [|discriminate]. injection Hs as <-. reflexivity.
  - destruct (0 <? d)%Z; [|discriminate]. injection Hs as <-. reflexivity.
Qed.

Lemma step_exited (l : label) (s s' : World) :
  Inv s -> loop s = LoopExited -> step l s = Some s' ->
  loop s' = LoopExited /\ senders s' = senders s /\ calls s' = calls s.
Proof.
  intros HI Hlp Hs.
  assert (Hsr : startRet s <> None) by (apply started_of_loop; [assumption | congruence]).
  pose proof (step_loop l s s' Hs) as Hl.
  pose proof (step_effect l s s' Hs) as [_ He].
  destruct l; try (destruct He as (_ & -> & ->); split; [congruence | auto]).
  - destruct He as (Hnone & _). contradiction.
  - unfold step in Hs. destruct (crashed s); [discriminate|].
    rewrite Hlp in Hs. discriminate.
  - unfold step in Hs. destruct (crashed s); [discriminate|].
    rewrite Hlp in Hs. discriminate.
  - unfold step in Hs. destruct (crashed s); [discriminate|].
    rewrite Hlp in Hs. discriminate.
  - unfold step in Hs. destruct (crashed s); [discriminate|].
    rewrite Hlp in Hs. discriminate.
Qed.

Lemma run_exited (ls : list label) (s s' : World) :
  Inv s -> loop s = LoopExited -> run ls s = Some s' ->
  Inv s' /\ loop s' = LoopExited /\ senders s' = senders s /\ calls s' = calls s.
Proof.
  revert s. induction ls as [|l ls IH]; intros s HI Hlp Hr; cbn in Hr.
  - injection Hr as <-. auto.
  - destruct (step l s) as [s1|] eqn:Hs; [|discriminate].
    destruct (step_exited l s s1 HI Hlp Hs) as (Hlp1 & Hsd1 & Hcs1).
    destruct (IH s1 (step_Inv l s s1 HI Hs) Hlp1 Hr) as (HI' & Hlp' & Hsd' & Hcs').
    split; [assumption|]. split; [assumption|]. split; congruence.
Qed.

(** X2: once the loop has returned on the stop signal the handler is never
    called again, and the senders of the scan that are still blocked stay
    blocked. *)
Theorem no_dispatch_after_loop_exit (p : string) (s s' : World) (ls : list label) :
  reachable p s -> loop s = LoopExited -> run ls s = Some s' ->
  calls s' = calls s /\ senders s' = senders s /\ loop s' = LoopExited.
Proof.
  intros Hr Hlp Hrun. apply reachable_Inv in Hr.
  destruct (run_exited ls s s' Hr Hlp Hrun) as (_ & ? & ? & ?). auto.
Qed.

Lemma no_dispatch_after_loop_exit_witness :
  (reachable pluginsPath (after orphanRun session) /\
   loop (after orphanRun session) = LoopExited) /\
  calls (after [Tick 11000000000; StopTimeout] (after orphanRun session)) =
    calls (after orphanRun session).
Proof.
  assert (Hr : reachable pluginsPath (after orphanRun session)).
  { exists orphanRun. vm_compute. reflexivity. }
  assert (Hlp : loop (after orphanRun session) = LoopExited) by (vm_compute; reflexivity).
  split; [auto|].
  refine (proj1 (no_dispatch_after_loop_exit _ _ _ [Tick 11000000000; StopTimeout] Hr Hlp _)).
  vm_compute. reflexivity.
Defined.

Lemma step_closedInv (l : label) (s s' : World) :
  Inv s -> closedInv s -> step l s = Some s' -> closedInv s'.
Proof.
  intros HI HQ Hs. pose proof (inv_wg s HI) as Hwg. unfold tracked in Hwg.
  pose proof (loopCount_nonneg (loop s)) as Hlc.
  unfold closedInv, closeCalled in *.
  unfold step in Hs. destruct (crashed s); [discriminate|].
  destruct l.
  - destruct (caller s); [|discriminate].
    destruct (startRet s) eqn:Hsr; [discriminate|].
    pose proof (inv_startRet s HI Hsr) as Hch.
    destruct (inv_fresh s HI Hch) as (_ & Hfs & _).
    rewrite start_unfold in Hs.
    destruct nw; [injection Hs as <-; cbn; rewrite Hfs; intros [|]; discriminate|].
    destruct rd; cbn in Hs; injection Hs as <-; cbn; intros [|]; discriminate.
  - destruct (caller s); [|discriminate]. injection Hs as <-.
    unfold stop. destruct (stopCh (w s)) as [[|]|]; cbn; exact HQ.
  - destruct (loop s) eqn:Hlp; try discriminate.
    destruct (senders s !! i) as [event|]; [|discriminate]. injection Hs as <-.
    cbn in Hwg. unfold loopEvent.
    destruct (handleEvent event) as [logs [name|]]; cbn; intros Hcl;
      destruct (HQ Hcl); lia.
  - destruct (loop s) eqn:Hlp; try discriminate.
    destruct (fsWatcher (w s)) as [[| |]|] eqn:Hfs; try discriminate.
    destruct (attached s); [|discriminate]. injection Hs as <-.
    unfold loopEvent.
    destruct (handleEvent event) as [logs [name|]]; cbn; rewrite Hfs;
      intros [|]; discriminate.
  - destruct (loop s) eqn:Hlp; try discriminate.
    destruct (fsWatcher (w s)) as [[| |]|] eqn:Hfs; try discriminate.
    injection Hs as <-. destruct err; cbn; rewrite Hfs; intros [|]; discriminate.
  - destruct (loop s) eqn:Hlp; try discriminate.
    destruct (stopCh (w s)) as [[|]|]; try discriminate. injection Hs as <-.
    cbn in *. intros Hcl. destruct (HQ Hcl). lia.
  - destruct (loop s) eqn:Hlp; try discriminate. injection Hs as <-.
    cbn in *. intros Hcl. destruct (HQ Hcl). lia.
  - destruct (finishing s) eqn:Hfin; try discriminate. injection Hs as <-.
    cbn in *. intros Hcl. destruct (HQ Hcl). lia.
  - destruct (drainCh s) as [[|]|]; try discriminate.
    destruct (wg (w s) =? 0)%Z; [|discriminate]. injection Hs as <-. exact HQ.
  - destruct (caller s); try discriminate.
    destruct (drainCh s) as [[|]|] eqn:Hd; try discriminate. injection Hs as <-.
    pose proof (inv_drain s HI Hd) as Hz.
    unfold stop_drained. destruct (fsWatcher (w s)) as [h|] eqn:Hfs.
    + destruct (Close h cl) as [h' [e|]]; cbn; intros _; split; auto; discriminate.
    + cbn. rewrite Hfs. intros [|]; discriminate.
  - destruct (caller s); try discriminate.
    destruct (_ <=? _)%Z; [|discriminate]. injection Hs as <-.
    cbn. intros Hcl. destruct (HQ Hcl). split; [assumption | discriminate].
  - destruct (0 <? d)%Z; [|discriminate]. injection Hs as <-. exact HQ.
Qed.

Lemma reachable_closedInv (p : string) (s : World) : reachable p s -> closedInv s.
Proof.
  intros [ls Hr].
  assert (H0 : Inv (newCSIWatcher p) /\ closedInv (newCSIWatcher p)).
  { split; [apply Inv_new|]. intros [|]; discriminate. }
  revert H0 Hr. generalize (newCSIWatcher p).
  induction ls as [|l ls IH]; intros s0 [HI HQ] Hr; cbn in Hr.
  - now injection Hr as <-.
  - destruct (step l s0) as [s1|] eqn:Hs; [|discriminate].
    apply (IH s1); [|exact Hr]. split.
    + eapply step_Inv; eassumption.
    + eapply step_closedInv; eassumption.
Qed.

Lemma reachable_run (p : string) (ls : list label) (s s' : World) :
  reachable p s -> run ls s = Some s' -> reachable p s'.
Proof.
  intros [ls0 Hr] Hrun. exists (ls0 ++ ls)%list. now rewrite run_app, Hr.
Qed.

(** C4, as the claim has it, fails: the plugin directory holds [A] and [B],
    [start] succeeds, [stop] is called and the loop takes the stop signal
    before any event of the scan.  The handler has not been called for [A]
    or [B], and it never will be, whatever happens next. *)
Lemma scan_dirs_undispatched_after_early_stop :
  (Forall (fun file => Filepath.entry_name (FName file)) pluginDirs /\
   List.NoDup (map FName pluginDirs) /\
   step (CallStart None (inl pluginDirs) None) session =
     Some (after [CallStart None (inl pluginDirs) None] session) /\
   run [CallStop; LoopRecvStop] (after [CallStart None (inl pluginDirs) None] session) =
     Some (after orphanRun session)) /\
  scannedNames pluginDirs = ["A"; "B"] /\
  calls (after orphanRun session) = [] /\
  forall ls s', run ls (after orphanRun session) = Some s' -> calls s' = [].
Proof.
  split; [|split; [|split]].
  - split; [repeat constructor; discriminate|].
    split; [repeat constructor; cbn; intuition discriminate|].
    split; vm_compute; reflexivity.
  - reflexivity.
  - vm_compute. reflexivity.
  - intros ls s' Hrun.
    assert (Hr : reachable pluginsPath (after orphanRun session)).
    { exists orphanRun. vm_compute. reflexivity. }
    apply reachable_Inv in Hr.
    assert (Hlp : loop (after orphanRun session) = LoopExited) by (vm_compute; reflexivity).
    destruct (run_exited ls _ s' Hr Hlp Hrun) as (_ & _ & _ & Hcs).
    rewrite Hcs. vm_compute. reflexivity.
Qed.

(** X3: when the loop has returned while senders of the initial scan are
    still blocked in their send, nothing can unblock them: from then on the
    counter of the WaitGroup stays positive, the branch of [c] in [stop] can
    never be taken, [stop] never returns nil, and the watcher is never
    closed. *)
Theorem orphaned_senders_hold_watcher (p : string) (s s' : World) (ls : list label) :
  reachable p s -> loop s = LoopExited -> senders s <> [] ->
  run ls s = Some s' ->
  (1 <= wg (w s'))%Z /\
  (forall cl, step (StopDrained cl) s' = None) /\
  stopRet s' <> Some None /\
  fsWatcher (w s') = Some Open.
Proof.
  intros Hr Hlp Hsd Hrun.
  pose proof (reachable_run p ls s s' Hr Hrun) as Hr'.
  pose proof (reachable_closedInv p s' Hr') as HQ.
  apply reachable_Inv in Hr, Hr'.
  destruct (run_exited ls s s' Hr Hlp Hrun) as (_ & Hlp' & Hsd' & _).
  pose proof (inv_wg s' Hr') as Hwg. unfold tracked in Hwg.
  rewrite Hlp', Hsd' in Hwg. cbn in Hwg.
  assert (Hpos : (1 <= wg (w s'))%Z).
  { destruct (senders s); [contradiction|]. cbn in Hwg. lia. }
  split; [exact Hpos|]. split; [|split].
  - intros cl. unfold step. destruct (crashed s'); [reflexivity|].
    destruct (caller s'); [reflexivity|].
    destruct (drainCh s') as [[|]|] eqn:Hd; try reflexivity.
    pose proof (inv_drain s' Hr' Hd). lia.
  - intros Hnil. destruct (inv_nilret s' Hr' Hnil) as (_ & _ & Hz). lia.
  - destruct (fsWatcher (w s')) as [[| |]|] eqn:Hfs.
    + reflexivity.
    + destruct HQ as [Hz _]; [left; exact Hfs | lia].
    + destruct HQ as [Hz _]; [right; exact Hfs | lia].
    + destruct (inv_nil s' Hr' Hfs) as (_ & Hnil & _). congruence.
Qed.

Lemma orphaned_senders_hold_watcher_witness :
  (reachable pluginsPath (after orphanRun session) /\
   loop (after orphanRun session) = LoopExited /\
   senders (after orphanRun session) <> []) /\
  stopRet (after [Tick 11000000000; StopTimeout] (after orphanRun session)) <> Some None /\
  fsWatcher (w (after [Tick 11000000000; StopTimeout] (after orphanRun session))) = Some Open.
Proof.
  assert (Hr : reachable pluginsPath (after orphanRun session)).
  { exists orphanRun. vm_compute. reflexivity. }
  assert (Hlp : loop (after orphanRun session) = LoopExited) by (vm_compute; reflexivity).
  assert (Hsd : senders (after orphanRun session) <> []) by (vm_compute; discriminate).
  split; [auto|].
  refine (proj2 (proj2 (orphaned_senders_hold_watcher _ _ _
                          [Tick 11000000000; StopTimeout] Hr Hlp Hsd _))).
  vm_compute. reflexivity.
Defined.

(** ** A clean shutdown *)

Lemma receive_all (events : list Event) (s : World) :
  ready s -> senders s = events ->
  exists s', run (receiveAll events) s = Some s' /\ ready s' /\
             senders s' = [] /\
             finishing s' = (finishing s + length events)%nat /\
             calls s' = (calls s ++ flat_map (callOf Injected) events)%list.
Proof.
  revert s. induction events as [|event rest IH]; intros s Hready Hsd.
  - exists s. cbn. rewrite app_nil_r.
    split; [reflexivity|]. split; [assumption|]. split; [assumption|].
    split; [lia | reflexivity].
  - destruct Hready as (Hc & Hcl & Hch & Hfs & Hlp).
    cbn [receiveAll]. rewrite <- app_comm_cons. cbn [run].
    unfold step at 1. rewrite Hc, Hlp, Hsd. cbn [lookup list_lookup delete list_delete].
    unfold callOf at 1. cbn [flat_map].
    unfold loopEvent. destruct (handleEvent event) as [logs [name|]]; cbn [snd app].
    + cbn [run]. unfold step at 1. cbn. rewrite Hc.
      match goal with
      | |- context [run (receiveAll rest) ?st] => destruct (IH st) as (s' & Hrun & Hr' & Hs' & Hf' & Hc')
      end.
      { repeat split; cbn; auto. }
      { reflexivity. }
      exists s'. split; [exact Hrun|]. split; [exact Hr'|]. split; [exact Hs'|].
      cbn in Hf', Hc'. split; [cbn; lia|]. rewrite Hc', <- app_assoc. reflexivity.
    + match goal with
      | |- context [run (receiveAll rest) ?st] => destruct (IH st) as (s' & Hrun & Hr' & Hs' & Hf' & Hc')
      end.
      { repeat split; cbn; auto. }
      { reflexivity. }
      exists s'. split; [exact Hrun|]. split; [exact Hr'|]. split; [exact Hs'|].
      cbn in Hf', Hc'. split; [cbn; lia|]. rewrite Hc'. reflexivity.
Qed.

Lemma injectors_done (n : nat) (s : World) :
  ready s -> finishing s = n ->
  exists s', run (repeat InjectorDone n) s = Some s' /\ ready s' /\
             finishing s' = 0%nat /\ senders s' = senders s /\ calls s' = calls s.
Proof.
  revert s. induction n as [|n IH]; intros s Hready Hfin.
  - exists s. cbn. auto 10.
  - destruct Hready as (Hc & Hcl & Hch & Hfs & Hlp).
    cbn [repeat run]. unfold step at 1. rewrite Hc, Hfin.
    destruct (IH (wgDone (set_finishing n s))) as (s' & Hrun & Hr' & Hf' & Hs' & Hc').
    { repeat split; cbn; auto. }
    { reflexivity. }
    exists s'. auto.
Qed.

Lemma stop_at_rest (p : string) (s : World) (cl : option error) :
  reachable p s -> ready s -> senders s = [] -> finishing s = 0%nat ->
  exists s', run [CallStop; LoopRecvStop; DrainWake; StopDrained cl] s = Some s' /\
             crashed s' = None /\ stopRet s' = Some cl /\
             fsWatcher (w s') = Some (match cl with None => Closed | Some _ => CloseFailed end) /\
             loop s' = LoopExited /\ wg (w s') = 0%Z /\ calls s' = calls s.
Proof.
  intros Hr (Hc & Hcl & Hch & Hfs & Hlp) Hsd Hfin. apply reachable_Inv in Hr.
  pose proof (inv_wg s Hr) as Hwg. unfold tracked in Hwg.
  rewrite Hlp, Hsd, Hfin in Hwg. cbn in Hwg.
  assert (Hwg1 : wg (w s) = 1%Z) by lia.
  cbn [run]. unfold step at 1. rewrite Hc, Hcl. unfold stop. rewrite Hch.
  unfold step at 1. cbn. rewrite Hc, Hlp.
  unfold step at 1. cbn. rewrite Hc, Hwg1.
  change (1 + -1 =? 0)%Z with true. cbv iota.
  unfold step at 1. cbn. rewrite Hc. unfold stop_drained. cbn. rewrite Hfs.
  destruct cl; cbn; (eexists; split; [reflexivity|]); cbn; rewrite ?Hc, ?Hwg1;
    repeat split.
Qed.

(** X4: a session that is running ([start] created the watcher, [stop] has
    not been called, no panic) can always be shut down cleanly: once the
    handler has returned, the pending events of the scan have been taken and
    their senders have called Done, [stop] drains, closes the watcher and
    returns what [Close] returned; the handler has then been called for the
    pending events of the scan and for nothing else. *)
Theorem clean_shutdown_possible (p : string) (s : World) (cl : option error) :
  reachable p s -> crashed s = None -> caller s = CallerIdle ->
  stopCh (w s) = Some ChOpen -> fsWatcher (w s) = Some Open ->
  exists s',
    run (shutdownSchedule s cl) s = Some s' /\
    crashed s' = None /\ stopRet s' = Some cl /\
    fsWatcher (w s') = Some (match cl with None => Closed | Some _ => CloseFailed end) /\
    loop s' = LoopExited /\ wg (w s') = 0%Z /\
    calls s' = (calls s ++ flat_map (callOf Injected) (senders s))%list.
Proof.
  intros Hr Hc Hcl Hch Hfs. pose proof (reachable_Inv p s Hr) as HI.
  unfold shutdownSchedule.
  (* the handler returns *)
  assert (H1 : exists s1,
             run (match loop s with LoopInHandler _ => [HandlerReturn] | _ => [] end) s
               = Some s1 /\
             ready s1 /\ senders s1 = senders s /\ finishing s1 = finishing s /\
             calls s1 = calls s).
  { destruct (loop s) eqn:Hlp.
    - rewrite (inv_started s HI Hlp) in Hfs. discriminate.
    - exists s. repeat split; auto.
    - cbn [run]. unfold step. rewrite Hc, Hlp. eexists. split; [reflexivity|].
      repeat split; cbn; auto.
    - rewrite (inv_exited s HI Hlp) in Hch. discriminate. }
  destruct H1 as (s1 & Hrun1 & Hready1 & Hsd1 & Hfin1 & Hcs1).
  destruct (receive_all (senders s) s1 Hready1 Hsd1)
    as (s2 & Hrun2 & Hready2 & Hsd2 & Hfin2 & Hcs2).
  destruct (injectors_done (finishing s + length (senders s)) s2 Hready2)
    as (s3 & Hrun3 & Hready3 & Hfin3 & Hsd3 & Hcs3).
  { rewrite Hfin2, Hfin1. reflexivity. }
  assert (Hr3 : reachable p s3).
  { eapply reachable_run; [|exact Hrun3]. eapply reachable_run; [|exact Hrun2].
    eapply reachable_run; [exact Hr | exact Hrun1]. }
  destruct (stop_at_rest p s3 cl Hr3 Hready3) as (s4 & Hrun4 & Hfinal).
  { congruence. }
  { exact Hfin3. }
  exists s4. rewrite run_app, Hrun1, run_app, Hrun2, run_app, Hrun3.
  split; [exact Hrun4|].
  destruct Hfinal as (? & ? & ? & ? & ? & Hcs4).
  repeat split; try assumption. congruence.
Qed.

Lemma clean_shutdown_possible_witness :
  (reachable pluginsPath (after busyRun session) /\
   crashed (after busyRun session) = None /\
   caller (after busyRun session) = CallerIdle /\
   stopCh (w (after busyRun session)) = Some ChOpen /\
   fsWatcher (w (after busyRun session)) = Some Open) /\
  exists s',
    run (shutdownSchedule (after busyRun session) None) (after busyRun session) = Some s' /\
    stopRet s' = Some None.
Proof.
  assert (Hr : reachable pluginsPath (after busyRun session)).
  { exists busyRun. vm_compute. reflexivity. }
  assert (Hc : crashed (after busyRun session) = None) by (vm_compute; reflexivity).
  assert (Hcl : caller (after busyRun session) = CallerIdle) by (vm_compute; reflexivity).
  assert (Hch : stopCh (w (after busyRun session)) = Some ChOpen) by (vm_compute; reflexivity).
  assert (Hfs : fsWatcher (w (after busyRun session)) = Some Open) by (vm_compute; reflexivity).
  split; [auto 10|].
  destruct (clean_shutdown_possible _ _ None Hr Hc Hcl Hch Hfs) as (s' & Hrun & _ & Hret & _).
  exists s'. exact (conj Hrun Hret).
Defined.

(** ** The error channel *)

(** X5: whatever comes out of the error channel of the watcher while the
    loop is in its select is received at once and changes nothing but the
    log, where the errors that are not nil appear in order: the loop is back
    in its select, with the same senders, counter and calls of the handler. *)
Theorem transient_errors_only_logged (s : World) (errs : list (option error)) :
  crashed s = None -> loop s = LoopSelect -> fsWatcher (w s) = Some Open ->
  run (map LoopRecvError errs) s = Some (set_klog (klog s ++ errorLines errs) s).
Proof.
  revert s. induction errs as [|err errs IH]; intros s Hc Hlp Hfs.
  - cbn. rewrite app_nil_r. now destruct s.
  - cbn [map run]. unfold step. rewrite Hc, Hlp, Hfs.
    destruct err as [e|].
    + rewrite IH by assumption. unfold errorLines. cbn.
      now rewrite <- app_assoc.
    + now rewrite IH by assumption.
Qed.

Lemma transient_errors_only_logged_witness :
  (crashed (after [CallStart None (inl pluginDirs) None] session) = None /\
   loop (after [CallStart None (inl pluginDirs) None] session) = LoopSelect /\
   fsWatcher (w (after [CallStart None (inl pluginDirs) None] session)) = Some Open) /\
  run (map LoopRecvError [Some "inotify: queue overflow"; None])
    (after [CallStart None (inl pluginDirs) None] session) =
  Some (set_klog
          (klog (after [CallStart None (inl pluginDirs) None] session) ++
           errorLines [Some "inotify: queue overflow"; None])
          (after [CallStart None (inl pluginDirs) None] session)).
Proof.
  assert (Hc : crashed (after [CallStart None (inl pluginDirs) None] session) = None)
    by (vm_compute; reflexivity).
  assert (Hlp : loop (after [CallStart None (inl pluginDirs) None] session) = LoopSelect)
    by (vm_compute; reflexivity).
  assert (Hfs : fsWatcher (w (after [CallStart None (inl pluginDirs) None] session)) = Some Open)
    by (vm_compute; reflexivity).
  split; [auto|].
  exact (transient_errors_only_logged _ [Some "inotify: queue overflow"; None] Hc Hlp Hfs).
Defined.

(** ** When [start] fails *)

Lemma step_watch (l : label) (s s' : World) :
  step l s = Some s' ->
  match l with
  | CallStart _ _ _ => True
  | LoopRecvEvent _ => attached s = true /\ attached s' = true
  | _ => attached s' = attached s
  end /\
  match l with
  | CallStart _ _ _ | StopDrained _ => True
  | _ => fsWatcher (w s') = fsWatcher (w s)
  end.
Proof.
  unfold step. destruct (crashed s); [discriminate|].
  destruct l; intros Hs; try (split; exact I).
  - destruct (caller s); [|discriminate]. injection Hs as <-.
    unfold stop. destruct (stopCh (w s)) as [[|]|]; split; reflexivity.
  - destruct (loop s); try discriminate.
    destruct (senders s !! i) as [event|]; [|discriminate]. injection Hs as <-.
    unfold loopEvent. destruct (handleEvent event) as [logs [name|]]; split; reflexivity.
  - destruct (loop s); try discriminate.
    destruct (fsWatcher (w s)) as [[| |]|] eqn:Hfs; try discriminate.
    destruct (attached s) eqn:Hat; [|discriminate]. injection Hs as <-.
    unfold loopEvent. destruct (handleEvent event) as [logs [name|]]; cbn; auto.
  - destruct (loop s); try discriminate.
    destruct (fsWatcher (w s)) as [[| |]|] eqn:Hfs; try discriminate.
    injection Hs as <-. destruct err; cbn; auto.
  - destruct (loop s); try discriminate.
    destruct (stopCh (w s)) as [[|]|]; try discriminate.
    injection Hs as <-. split; reflexivity.
  - destruct (loop s); try discriminate. injection Hs as <-. split; reflexivity.
  - destruct (finishing s); try discriminate. injection Hs as <-. split; reflexivity.
  - destruct (drainCh s) as [[|]|]; try discriminate.
    destruct (wg (w s) =? 0)%Z; [|discriminate]. injection Hs as <-. split; reflexivity.
  - destruct (caller s); try discriminate.
    destruct (drainCh s) as [[|]|]; try discriminate. injection Hs as <-.
    unfold stop_drained. destruct (fsWatcher (w s)) as [h|]; [|split; [reflexivity | exact I]].
    destruct (Close h cl) as [h' [e|]]; split; [reflexivity | exact I | reflexivity | exact I].
  - destruct (caller s); try discriminate.
    destruct (_ <=? _)%Z; [|discriminate]. injection Hs as <-. split; reflexivity.
  - destruct (0 <? d)%Z; [|discriminate]. injection Hs as <-. split; reflexivity.
Qed.

Lemma run_no_watcher (ls : list label) (s s' : World) :
  startRet s <> None -> fsWatcher (w s) = None -> run ls s = Some s' ->
  startRet s' <> None /\ fsWatcher (w s') = None.
Proof.
  revert s. induction ls as [|l ls IH]; intros s Hsr Hfs Hr; cbn in Hr.
  - injection Hr as <-. auto.
  - destruct (step l s) as [s1|] eqn:Hs; [|discriminate].
    apply (IH s1); [| |exact Hr].
    + pose proof (step_effect l s s1 Hs) as [_ He].
      destruct l; try (destruct He as (-> & _); exact Hsr).
      destruct He as (Hnone & _). contradiction.
    + pose proof (step_watch l s s1 Hs) as [_ Hw].
      destruct l; try (rewrite Hw; exact Hfs).
      * pose proof (step_effect _ s s1 Hs) as [_ (Hnone & _)]. contradiction.
      * unfold step in Hs. destruct (crashed s); [discriminate|].
        destruct (caller s); try discriminate.
        destruct (drainCh s) as [[|]|]; try discriminate. injection Hs as <-.
        unfold stop_drained. rewrite Hfs. exact Hfs.
Qed.

(** X6: when [fsnotify.NewWatcher] has failed, [start] has returned with the
    stop channel made and no watcher.  From then on the handler is never
    called, [stop] never returns nil, and whenever [stop] takes the branch
    of [c] it panics on the nil watcher instead of returning. *)
Theorem stop_without_watcher_panics (p : string) (s s' : World) (ls : list label) :
  reachable p s -> startRet s <> None -> fsWatcher (w s) = None ->
  run ls s = Some s' ->
  calls s' = [] /\ stopRet s' <> Some None /\
  forall cl s'', step (StopDrained cl) s' = Some s'' ->
    crashed s'' = Some "invalid memory address or nil pointer dereference" /\
    stopRet s'' = stopRet s'.
Proof.
  intros Hr Hsr Hfs Hrun.
  pose proof (reachable_run p ls s s' Hr Hrun) as Hr'. apply reachable_Inv in Hr'.
  destruct (run_no_watcher ls s s' Hsr Hfs Hrun) as [_ Hfs'].
  split; [apply (inv_nocalls s' Hr' Hfs')|]. split.
  - intros Hnil. destruct (inv_nilret s' Hr' Hnil) as (_ & Hcl & _). congruence.
  - intros cl s'' Hs. unfold step in Hs. destruct (crashed s'); [discriminate|].
    destruct (caller s'); try discriminate.
    destruct (drainCh s') as [[|]|]; try discriminate. injection Hs as <-.
    unfold stop_drained. rewrite Hfs'. split; reflexivity.
Qed.

Lemma stop_without_watcher_panics_witness :
  (reachable pluginsPath (after failedRun session) /\
   startRet (after failedRun session) <> None /\
   fsWatcher (w (after failedRun session)) = None) /\
  crashed (after [StopDrained None] (after [CallStop; DrainWake] (after failedRun session)))
  = Some "invalid memory address or nil pointer dereference".
Proof.
  assert (Hr : reachable pluginsPath (after failedRun session)).
  { exists failedRun. vm_compute. reflexivity. }
  assert (Hsr : startRet (after failedRun session) <> None) by (vm_compute; discriminate).
  assert (Hfs : fsWatcher (w (after failedRun session)) = None) by (vm_compute; reflexivity).
  split; [auto|].
  refine (proj1 (proj2 (proj2 (stop_without_watcher_panics _ _
                                 (after [CallStop; DrainWake] (after failedRun session))
                                 [CallStop; DrainWake] Hr Hsr Hfs _)) None _ _)).
  - vm_compute. reflexivity.
  - vm_compute. reflexivity.
Defined.

Lemma step_attachedInv (l : label) (s s' : World) :
  Inv s -> attachedInv s -> step l s = Some s' -> attachedInv s'.
Proof.
  intros HI [Hat Hlive] Hs.
  pose proof (step_watch l s s' Hs) as [Hw _].
  pose proof (step_effect l s s' Hs) as [_ He].
  unfold attachedInv.
  destruct l;
    try solve [destruct He as (-> & _ & ->); rewrite Hw; auto].
  - (* CallStart *)
    destruct He as (Hsr & _ & Hcs & _).
    pose proof (inv_startRet s HI Hsr) as Hch.
    destruct (inv_fresh s HI Hch) as (_ & Hfs & _).
    pose proof (inv_nocalls s HI Hfs) as Hnc.
    pose proof (inv_unattached s HI Hfs) as Hua.
    rewrite Hcs, Hnc. split; [|constructor].
    unfold step in Hs. destruct (crashed s); [discriminate|].
    destruct (caller s); [|discriminate]. rewrite Hsr in Hs.
    rewrite start_unfold in Hs.
    destruct nw; [injection Hs as <-; cbn; congruence|].
    destruct rd; cbn in Hs; injection Hs as <-; cbn; [|congruence].
    destruct add; [discriminate | reflexivity].
  - (* LoopRecvInject *)
    destruct He as (-> & event & _ & _ & ->). rewrite Hw. split; [assumption|].
    apply Forall_app. split; [assumption|].
    unfold callOf. destruct (snd (handleEvent event)); repeat constructor.
    cbn. discriminate.
  - (* LoopRecvEvent *)
    destruct He as (-> & _ & ->). destruct Hw as [Ha Ha']. rewrite Ha'.
    split; [intros _; apply Hat; exact Ha|].
    apply Forall_app. split.
    + eapply Forall_impl; [exact Hlive|]. cbn. auto.
    + unfold callOf. destruct (snd (handleEvent event)); repeat constructor.
Qed.

Lemma reachable_attachedInv (p : string) (s : World) : reachable p s -> attachedInv s.
Proof.
  intros [ls Hr].
  assert (H0 : Inv (newCSIWatcher p) /\ attachedInv (newCSIWatcher p)).
  { split; [apply Inv_new|]. split; [discriminate | constructor]. }
  revert H0 Hr. generalize (newCSIWatcher p).
  induction ls as [|l ls IH]; intros s0 [HI HJ] Hr; cbn in Hr.
  - now injection Hr as <-.
  - destruct (step l s0) as [s1|] eqn:Hs; [|discriminate].
    apply (IH s1); [|exact Hr]. split.
    + eapply step_Inv; eassumption.
    + eapply step_attachedInv; eassumption.
Qed.

(** X7: the handler is called for a live event only in a session whose
    [start] returned nil: when [start] returned an error (the watcher could
    not be created, the directory could not be listed or the watch could not
    be attached) every call of the handler comes from the initial scan. *)
Theorem live_dispatch_needs_started_session (p : string) (s : World) :
  reachable p s -> startRet s <> Some None ->
  attached s = false /\ Forall (fun c => c_origin c = Injected) (calls s).
Proof.
  intros Hr Hsr. destruct (reachable_attachedInv p s Hr) as [Hat Hlive].
  assert (Hoff : attached s = false).
  { destruct (attached s); [|reflexivity]. exfalso. auto. }
  split; [exact Hoff|].
  eapply Forall_impl; [exact Hlive|]. cbn. intros c Hc.
  destruct (c_origin c); [reflexivity|]. rewrite Hoff in Hc. discriminate (Hc eq_refl).
Qed.

Lemma live_dispatch_needs_started_session_witness :
  (reachable pluginsPath (after unattachedRun session) /\
   startRet (after unattachedRun session) <> Some None) /\
  attached (after unattachedRun session) = false /\
  Forall (fun c => c_origin c = Injected) (calls (after unattachedRun session)).
Proof.
  assert (Hr : reachable pluginsPath (after unattachedRun session)).
  { exists unattachedRun. vm_compute. reflexivity. }
  assert (Hsr : startRet (after unattachedRun session) <> Some None)
    by (vm_compute; discriminate).
  exact (conj (conj Hr Hsr) (live_dispatch_needs_started_session _ _ Hr Hsr)).
Defined.

(** X8: when [fsWatcher.Add] fails, [start] returns its error with the loop
    and the senders of the scan already running: the watch is not attached
    and the watcher stays open, and the handler can still be called: in the
    run in which the loop takes the pending events of the scan it is called
    once for every directory listed that does not have the reserved name. *)
Theorem failed_attach_still_dispatches_scan
    (p : string) (files : list FileInfo) (e : error) (s_pre s0 : World) :
  reachable p s_pre ->
  Forall (fun file => Filepath.entry_name (FName file)) files ->
  step (CallStart None (inl files) (Some e)) s_pre = Some s0 ->
  startRet s0 = Some (Some e) /\ attached s0 = false /\
  fsWatcher (w s0) = Some Open /\
  exists s', run (drainSchedule (length (senders s0))) s0 = Some s' /\
             senders s' = [] /\ injectedNames (calls s') = scannedNames files.
Proof.
  intros Hpre Hnames Hstart.
  pose proof (reachable_Inv _ _ Hpre) as HI.
  pose proof (reachable_path _ _ Hpre) as Hp.
  unfold step in Hstart.
  destruct (crashed s_pre) eqn:Hc; [discriminate|].
  destruct (caller s_pre); [|discriminate].
  destruct (startRet s_pre) eqn:Hsr; [discriminate|].
  rewrite start_unfold in Hstart. cbn in Hstart. injection Hstart as Hs0.
  pose proof (inv_startRet _ HI Hsr) as Hch.
  destruct (inv_fresh _ HI Hch) as (_ & Hfs & _).
  destruct (inv_nil _ HI Hfs) as (_ & Hsd & _).
  pose proof (inv_nocalls _ HI Hfs) as Hnc.
  rewrite Hsd, Hp in Hs0. cbn in Hs0.
  destruct (initEvents_leaf p files Hnames) as [Hleaf Hdisp].
  assert (H0 : senders s0 = initEvents p files /\ calls s0 = [] /\
               loop s0 = LoopSelect /\ crashed s0 = None /\
               startRet s0 = Some (Some e) /\ attached s0 = false /\
               fsWatcher (w s0) = Some Open).
  { subst s0. cbn. rewrite Hnc, Hc. repeat split. }
  destruct H0 as (Hsd0 & Hcs0 & Hlp0 & Hc0 & Hsr0 & Hat0 & Hfs0).
  split; [exact Hsr0|]. split; [exact Hat0|]. split; [exact Hfs0|].
  destruct (drain_senders (length (senders s0)) s0 Hc0 Hlp0 eq_refl)
    as (s' & Hr' & Hs' & _ & _ & Hn').
  { rewrite Hsd0. exact Hdisp. }
  exists s'. split; [exact Hr'|]. split; [exact Hs'|].
  rewrite Hn', Hcs0, Hsd0. cbn. exact Hleaf.
Qed.

Lemma failed_attach_still_dispatches_scan_witness :
  startRet (after [CallStart None (inl pluginDirs) (Some "no space left on device")] session)
    = Some (Some "no space left on device") /\
  exists s',
    run (drainSchedule
           (length (senders (after [CallStart None (inl pluginDirs)
                                      (Some "no space left on device")] session))))
        (after [CallStart None (inl pluginDirs) (Some "no space left on device")] session)
      = Some s' /\
    senders s' = [] /\ injectedNames (calls s') = scannedNames pluginDirs.
Proof.
  assert (Hr : reachable pluginsPath session) by (exists []; reflexivity).
  assert (Hn : Forall (fun file => Filepath.entry_name (FName file)) pluginDirs).
  { repeat constructor; discriminate. }
  assert (Hs : step (CallStart None (inl pluginDirs) (Some "no space left on device")) session
               = Some (after [CallStart None (inl pluginDirs)
                                (Some "no space left on device")] session)).
  { vm_compute. reflexivity. }
  destruct (failed_attach_still_dispatches_scan _ _ _ _ _ Hr Hn Hs)
    as (Hsr & _ & _ & Hdrain).
  exact (conj Hsr Hdrain).
Defined.

End WatcherFacts.

(** * Facts about the delete-pvc script *)

Section DeletePVCFacts.

Import DeletePVC.

Lemma workloadOfPVC_rsCluster (rsOwner : OwnerReference) :
  Controller rsOwner = Some true ->
  snd (workloadOfPVC "data" (rsCluster rsOwner)) = (Some rsOwner, None).
Proof.
  intros Hctl. unfold workloadOfPVC, rsCluster, podClient_List. cbn.
  unfold ownerOfPod, replicaSetClient_Get. cbn.
  rewrite lookup_singleton_eq. cbn. now rewrite Hctl.
Qed.

(** C10: [deleteWorkload] sends a deletion request exactly for the kinds
    StatefulSet and Deployment; for any other kind it sends nothing, changes
    nothing and returns the error that names the kind.  [workloadOfPVC], on
    the other hand, returns the controller of a ReplicaSet whatever its kind
    is. *)
Theorem deleteWorkload_known_kinds_only
    (owner : OwnerReference) (c : Cluster) (kind name : string) :
  (if String.eqb (Kind owner) "StatefulSet" then
     requests (fst (deleteWorkload owner c)) =
       (requests c ++ [StatefulSetDelete (Name owner)])%list
   else if String.eqb (Kind owner) "Deployment" then
     requests (fst (deleteWorkload owner c)) =
       (requests c ++ [DeploymentDelete (Name owner)])%list
   else
     deleteWorkload owner c = (c, Some ("unkown workload: " ++ Kind owner ++ " "))) /\
  (List.filter is_delete (requests (fst (deleteWorkload owner c))) =
     List.filter is_delete (requests c) <->
   Kind owner <> "StatefulSet" /\ Kind owner <> "Deployment") /\
  snd (workloadOfPVC "data"
         (rsCluster {| Kind := kind; Name := name; Controller := Some true |})) =
    (Some {| Kind := kind; Name := name; Controller := Some true |}, None).
Proof.
  assert (Hreq :
    requests (fst (deleteWorkload owner c)) =
      (requests c ++
       (if String.eqb (Kind owner) "StatefulSet" then [StatefulSetDelete (Name owner)]
        else if String.eqb (Kind owner) "Deployment" then [DeploymentDelete (Name owner)]
        else []))%list).
  { unfold deleteWorkload.
    destruct (String.eqb (Kind owner) "StatefulSet").
    - unfold statefulSetClient_Delete. cbn.
      destruct (nextFault c); [reflexivity|].
      destruct (decide (Name owner ∈ statefulSets c)); reflexivity.
    - destruct (String.eqb (Kind owner) "Deployment"); [|cbn; now rewrite app_nil_r].
      unfold deploymentClient_Delete. cbn.
      destruct (nextFault c); [reflexivity|].
      destruct (decide (Name owner ∈ deployments c)); reflexivity. }
  split; [|split].
  - unfold deleteWorkload in *.
    destruct (String.eqb (Kind owner) "StatefulSet"); [exact Hreq|].
    destruct (String.eqb (Kind owner) "Deployment"); [exact Hreq | reflexivity].
  - rewrite Hreq, List.filter_app.
    destruct (String.eqb (Kind owner) "StatefulSet") eqn:Es.
    + apply String.eqb_eq in Es. cbn. split; [|tauto].
      intros E. apply (f_equal (@length request)) in E.
      rewrite length_app in E. cbn in E. lia.
    + apply String.eqb_neq in Es.
      destruct (String.eqb (Kind owner) "Deployment") eqn:Ed.
      * apply String.eqb_eq in Ed. cbn. split; [|tauto].
        intros E. apply (f_equal (@length request)) in E.
        rewrite length_app in E. cbn in E. lia.
      * apply String.eqb_neq in Ed. cbn. rewrite app_nil_r. tauto.
  - now apply workloadOfPVC_rsCluster.
Qed.

Example rollout_resolved_but_not_deleted :
  snd (workloadOfPVC "data"
         (rsCluster {| Kind := "Rollout"; Name := "web"; Controller := Some true |})) =
    (Some {| Kind := "Rollout"; Name := "web"; Controller := Some true |}, None) /\
  snd (deleteWorkload {| Kind := "Rollout"; Name := "web"; Controller := Some true |}
         (rsCluster {| Kind := "Rollout"; Name := "web"; Controller := Some true |})) =
    Some "unkown workload: Rollout " /\
  List.filter is_delete
    (requests (fst (deleteWorkload
                      {| Kind := "Rollout"; Name := "web"; Controller := Some true |}
                      (rsCluster {| Kind := "Rollout"; Name := "web"; Controller := Some true |}))))
  = [].
Proof.
  split; [now apply workloadOfPVC_rsCluster|]. split; reflexivity.
Qed.

(** * Further facts about the delete-pvc script *)

(** ** [deleteWorkload] *)


(** ** [retainPV] *)

(** X10: whatever the API server answers, [retainPV] first gets the claim
    and patches a volume only after that succeeded, and then the volume the
    claim names and no other: the requests it sends are the get alone, or the
    get followed by the patch of the volume bound to the claim.  It returns
    nil only if the claim exists and is bound to an existing volume, whose
    reclaim policy is then Retain while every other volume is as it was; it
    never changes a claim. *)
Theorem retainPV_patches_bound_volume (pvcName : string) (st : Storage) :
  claims (fst (retainPV pvcName st)) = claims st /\
  (storageRequests (fst (retainPV pvcName st)) =
     (storageRequests st ++ [ClaimGet pvcName])%list /\
   snd (retainPV pvcName st) <> None /\
   volumes (fst (retainPV pvcName st)) = volumes st \/
   exists v, claims st !! pvcName = Some v /\
             storageRequests (fst (retainPV pvcName st)) =
               (storageRequests st ++ [ClaimGet pvcName; VolumePatch v])%list) /\
  (snd (retainPV pvcName st) = None ->
   exists v, claims st !! pvcName = Some v /\ v <> EmptyString /\
             is_Some (volumes st !! v) /\
             volumes (fst (retainPV pvcName st)) = <[v := PolicyRetain]> (volumes st)).
Proof.
  unfold retainPV, pvcClient_Get. cbn.
  destruct (nextStorageFault st) as [e|].
  { cbn. split; [reflexivity|]. split; [left; repeat split; discriminate | discriminate]. }
  destruct (claims st !! pvcName) as [v|] eqn:Hc.
  - unfold pvClient_Patch. cbn. split.
    + destruct (String.eqb v EmptyString); [reflexivity|].
      destruct (storageFaults st _); [reflexivity|].
      destruct (volumes st !! v); reflexivity.
    + split.
      * right. exists v. split; [reflexivity|].
        destruct (String.eqb v EmptyString); [cbn; now rewrite <- app_assoc|].
        destruct (storageFaults st _); [cbn; now rewrite <- app_assoc|].
        destruct (volumes st !! v); cbn; now rewrite <- app_assoc.
      * destruct (String.eqb v EmptyString) eqn:Ev; [discriminate|].
        apply String.eqb_neq in Ev.
        destruct (storageFaults st _); [discriminate|].
        destruct (volumes st !! v) as [pol|] eqn:Hv; [|discriminate].
        intros _. exists v. cbn. repeat split; auto;
          try solve [now exists pol].
  - cbn. split; [reflexivity|]. split; [left; repeat split; discriminate | discriminate].
Qed.

(** ** [workloadOfPVC] *)

Lemma scanVolumes_mounts (pvcName : string) (pod : Pod) (c : Cluster) :
  scanVolumes pvcName pod (Volumes pod) c =
  if mounts pvcName pod then Some (ownerOfPod pod c) else None.
Proof.
  unfold mounts. induction (Volumes pod) as [|volume vols IH]; cbn; [reflexivity|].
  destruct (PersistentVolumeClaim volume) as [claimName|]; cbn; [|exact IH].
  destruct (String.eqb claimName pvcName); [reflexivity | exact IH].
Qed.

Lemma scanPods_skip (pvcName : string) (before pods : list Pod) (c : Cluster) :
  forallb (fun pod => negb (mounts pvcName pod)) before = true ->
  scanPods pvcName (before ++ pods) c = scanPods pvcName pods c.
Proof.
  induction before as [|pod before IH]; cbn; [reflexivity|].
  intros H. apply andb_prop in H as [Hpod Hrest]. apply negb_true_iff in Hpod.
  now rewrite scanVolumes_mounts, Hpod, IH.
Qed.

(** What [ownerOfPod] can give: never an owner together with an error, never
    neither, and an owner only if it is a controller. *)
Lemma ownerOfPod_result (pod : Pod) (c : Cluster) :
  (fst (ownerOfPod pod c) = c \/
   exists name, fst (ownerOfPod pod c) = sent (ReplicaSetGet name) c) /\
  match snd (ownerOfPod pod c) with
  | (Some owner, None) => Controller owner = Some true
  | (None, Some _) => True
  | _ => False
  end.
Proof.
  assert (Hctl : forall refs ref, GetControllerOf refs = Some ref ->
                                  Controller ref = Some true).
  { induction refs as [|r refs IH]; cbn; [discriminate|]. intros ref.
    destruct (Controller r) as [[|]|] eqn:E; auto. now intros [= <-]. }
  unfold ownerOfPod.
  destruct (GetControllerOf (PodOwnerReferences pod)) as [podOwner|] eqn:Hpo; cbn; [|auto].
  destruct (String.eqb (Kind podOwner) "StatefulSet"); cbn; [eauto|].
  destruct (String.eqb (Kind podOwner) "ReplicaSet"); cbn; [|auto].
  destruct (nextFault c); cbn; [eauto|].
  destruct (replicaSets c !! Name podOwner) as [rs|]; cbn; [|eauto].
  destruct (GetControllerOf (RSOwnerReferences rs)) as [rsOwner|] eqn:Hro; cbn; eauto.
Qed.

(** X12: [workloadOfPVC] only reads: it lists the pods and gets at most one
    ReplicaSet, and leaves every object of the namespace as it is. *)
Theorem workloadOfPVC_reads_only (pvcName : string) (c : Cluster) :
  podItems (fst (workloadOfPVC pvcName c)) = podItems c /\
  replicaSets (fst (workloadOfPVC pvcName c)) = replicaSets c /\
  statefulSets (fst (workloadOfPVC pvcName c)) = statefulSets c /\
  deployments (fst (workloadOfPVC pvcName c)) = deployments c /\
  (requests (fst (workloadOfPVC pvcName c)) = (requests c ++ [PodList])%list \/
   exists name, requests (fst (workloadOfPVC pvcName c)) =
                  (requests c ++ [PodList; ReplicaSetGet name])%list).
Proof.
  unfold workloadOfPVC, podClient_List. cbn.
  destruct (podItems c) as [pods|err] eqn:Hpods; cbn; [|auto 10].
  assert (H : fst (scanPods pvcName pods (sent PodList c)) = sent PodList c \/
              exists name, fst (scanPods pvcName pods (sent PodList c)) =
                             sent (ReplicaSetGet name) (sent PodList c)).
  { clear Hpods. induction pods as [|pod pods IH]; cbn; [now left|].
    rewrite scanVolumes_mounts. destruct (mounts pvcName pod); [|exact IH].
    apply (ownerOfPod_result pod (sent PodList c)). }
  destruct H as [-> | (name & ->)]; cbn.
  - auto 10.
  - repeat split; auto. right. exists name. now rewrite <- app_assoc.
Qed.

(** X13: the first pod, in the order of the list, that has a volume naming
    the claim decides the result, whatever pods follow it: also when that pod
    has no controller and a later pod that mounts the claim has one. *)
Theorem workloadOfPVC_first_mount (pvcName : string) (c : Cluster)
    (before later : list Pod) (pod : Pod) :
  podItems c = inl (before ++ pod :: later)%list ->
  forallb (fun q => negb (mounts pvcName q)) before = true ->
  mounts pvcName pod = true ->
  workloadOfPVC pvcName c = ownerOfPod pod (sent PodList c).
Proof.
  intros Hpods Hbefore Hpod. unfold workloadOfPVC, podClient_List. rewrite Hpods.
  rewrite scanPods_skip by assumption. cbn.
  now rewrite scanVolumes_mounts, Hpod.
Qed.

Lemma workloadOfPVC_first_mount_witness :
  workloadOfPVC "data" mixedCluster = ownerOfPod barePod (sent PodList mixedCluster) /\
  snd (workloadOfPVC "data" mixedCluster) = (None, Some "pod ownerReference is nil").
Proof.
  assert (H : workloadOfPVC "data" mixedCluster =
              ownerOfPod barePod (sent PodList mixedCluster)).
  { apply (workloadOfPVC_first_mount "data" mixedCluster [idlePod] [dbPod]); reflexivity. }
  split; [exact H|]. rewrite H. reflexivity.
Defined.

(** X14: [workloadOfPVC] returns neither an owner nor an error exactly when
    the pods could be listed and none of them has a volume naming the claim;
    and it never returns an owner together with an error, and an owner only
    if it is a controller reference. *)
Theorem workloadOfPVC_unbound_iff (pvcName : string) (c : Cluster) :
  (snd (workloadOfPVC pvcName c) = (None, None) <->
   exists pods, podItems c = inl pods /\
                forallb (fun q => negb (mounts pvcName q)) pods = true) /\
  match snd (workloadOfPVC pvcName c) with
  | (Some owner, None) => Controller owner = Some true
  | (Some _, Some _) => False
  | _ => True
  end.
Proof.
  unfold workloadOfPVC, podClient_List.
  destruct (podItems c) as [pods|err] eqn:Hpods; cbn.
  - assert (H : (snd (scanPods pvcName pods (sent PodList c)) = (None, None) <->
                 forallb (fun q => negb (mounts pvcName q)) pods = true) /\
                match snd (scanPods pvcName pods (sent PodList c)) with
                | (Some owner, None) => Controller owner = Some true
                | (Some _, Some _) => False
                | _ => True
                end).
    { clear Hpods. induction pods as [|pod pods IH]; cbn; [tauto|].
      rewrite scanVolumes_mounts. destruct (mounts pvcName pod); cbn; [|exact IH].
      pose proof (ownerOfPod_result pod (sent PodList c)) as [_ Hres].
      destruct (snd (ownerOfPod pod (sent PodList c))) as [[owner|] [e|]];
        try contradiction; split; auto; split; discriminate. }
    destruct H as [Hiff Hres]. split; [|exact Hres].
    rewrite Hiff. split.
    + intros H. exists pods. auto.
    + intros (pods' & [= <-] & H). exact H.
  - split; [|exact I]. split; [discriminate|]. intros (pods & Habs & _). discriminate.
Qed.

(** ** [confirm] *)

Lemma append_cons (c : ascii) (a b : string) : String c a ++ b = String c (a ++ b).
Proof. reflexivity. Qed.

Lemma append_assoc (a b c : string) : (a ++ b) ++ c = a ++ (b ++ c).
Proof.
  induction a as [|x a IH]; [reflexivity|].
  now rewrite !append_cons, IH.
Qed.

Lemma length_append (a b : string) :
  String.length (a ++ b) = String.length a + String.length b.
Proof.
  induction a as [|x a IH]; [reflexivity|].
  rewrite append_cons. cbn [String.length]. now rewrite IH.
Qed.

Lemma ReadString_line (line rest : string) :
  completeLine line = true -> ReadString (line ++ rest) = (line, rest, None).
Proof.
  induction line as [|c line IH]; [discriminate|].
  rewrite append_cons. cbn [completeLine ReadString].
  destruct (Ascii.eqb c newline).
  - intros H. apply String.eqb_eq in H. subst line. reflexivity.
  - intros H. now rewrite IH.
Qed.

Lemma ReadString_tail (tail : string) :
  noNewline tail = true -> ReadString tail = (tail, EmptyString, Some "EOF").
Proof.
  induction tail as [|c tail IH]; simpl; [reflexivity|].
  destruct (Ascii.eqb c newline); simpl; [discriminate|].
  intros H. now rewrite IH.
Qed.

Lemma ReadString_shorter (input line rest : string) :
  ReadString input = (line, rest, None) -> String.length rest < String.length input.
Proof.
  revert line rest. induction input as [|c input IH]; simpl; intros line rest; [discriminate|].
  destruct (Ascii.eqb c newline).
  - intros [= _ <-]. lia.
  - destruct (ReadString input) as [[line' rest'] err] eqn:E.
    intros [= _ <- ->]. specialize (IH line' rest' eq_refl). lia.
Qed.

Lemma ReadString_error (input line rest : string) (e : error) :
  ReadString input = (line, rest, Some e) -> e = "EOF".
Proof.
  revert line rest. induction input as [|c input IH]; simpl; intros line rest.
  - now intros [= _ _ <-].
  - destruct (Ascii.eqb c newline); [discriminate|].
    destruct (ReadString input) as [[line' rest'] err] eqn:E.
    intros [= _ _ ->]. eapply IH. reflexivity.
Qed.

Lemma repeat_snoc {A} (x : A) (n : nat) : (repeat x n ++ [x])%list = repeat x (S n).
Proof. induction n as [|n IH]; cbn; [reflexivity|]. now rewrite IH. Qed.

Lemma confirm_loop_returns (TrimSpace : string -> string) (cue : string)
    (fuel : nat) (input : string) (out : list string) :
  String.length input < fuel ->
  exists answer err n,
    confirm_loop TrimSpace fuel cue input out =
      Some (answer, err, (out ++ repeat (prompt cue) (S n))%list) /\
    n <= String.length input /\
    (err = None \/ err = Some "EOF" /\ answer = false).
Proof.
  revert input out. induction fuel as [|fuel IH]; intros input out Hlt; [lia|].
  cbn [confirm_loop].
  destruct (ReadString input) as [[line rest] [e|]] eqn:Hread.
  - exists false, (Some e), 0. apply ReadString_error in Hread. subst e.
    repeat split; auto. lia.
  - destruct (String.eqb (TrimSpace line) "yes").
    { exists true, None, 0. repeat split; auto. lia. }
    destruct (String.eqb (TrimSpace line) "no").
    { exists false, None, 0. repeat split; auto. lia. }
    apply ReadString_shorter in Hread.
    destruct (IH rest (out ++ [prompt cue])%list) as (answer & err & n & Heq & Hn & Herr);
      [lia|].
    exists answer, err, (S n). rewrite Heq. split; [|split; [lia | exact Herr]].
    rewrite <- app_assoc. reflexivity.
Qed.

(** X15: the loop of [confirm] ends on every finite input: it returns after
    it has printed the prompt at most once per byte of the input and once
    more, with an answer and nil, or with [false] and [io.EOF]. *)
Theorem confirm_returns (TrimSpace : string -> string) (cue input : string) :
  exists answer err n,
    confirm_loop TrimSpace (S (String.length input)) cue input [] =
      Some (answer, err, repeat (prompt cue) (S n)) /\
    confirm TrimSpace cue input = (answer, err, repeat (prompt cue) (S n)) /\
    n <= String.length input /\
    (err = None \/ err = Some "EOF" /\ answer = false).
Proof.
  destruct (confirm_loop_returns TrimSpace cue (S (String.length input)) input [])
    as (answer & err & n & Heq & Hn & Herr); [lia|].
  exists answer, err, n. unfold confirm. rewrite Heq. auto.
Qed.

Lemma joinLines_length (lines : list string) :
  forallb completeLine lines = true -> length lines <= String.length (joinLines lines).
Proof.
  unfold joinLines. induction lines as [|line lines IH]; cbn [forallb fold_right length]; [cbn; lia|].
  intros H. apply andb_prop in H as [Hline Hrest]. specialize (IH Hrest).
  rewrite length_append. destruct line; [discriminate|]. cbn [String.length]. lia.
Qed.

Lemma confirm_loop_skip (TrimSpace : string -> string) (cue : string)
    (skipped : list string) (input : string) (fuel : nat) (out : list string) :
  forallb completeLine skipped = true ->
  forallb (fun line => negb (decides (TrimSpace line))) skipped = true ->
  confirm_loop TrimSpace (length skipped + fuel) cue (joinLines skipped ++ input) out =
  confirm_loop TrimSpace fuel cue input (out ++ repeat (prompt cue) (length skipped))%list.
Proof.
  revert out. induction skipped as [|line skipped IH]; intros out Hlines Hund.
  - cbn. now rewrite app_nil_r.
  - cbn in Hlines, Hund. apply andb_prop in Hlines as [Hline Hlines].
    apply andb_prop in Hund as [Hu Hund]. apply negb_true_iff in Hu.
    unfold decides in Hu. apply orb_false_iff in Hu as [Hy Hn].
    cbn [length Nat.add joinLines fold_right confirm_loop].
    change (fold_right String.append EmptyString skipped) with (joinLines skipped).
    rewrite append_assoc, (ReadString_line _ _ Hline), Hy, Hn.
    rewrite IH by assumption. cbn [repeat]. now rewrite <- app_assoc.
Qed.

Lemma confirm_skip (TrimSpace : string -> string) (cue : string)
    (skipped : list string) (input : string) :
  forallb completeLine skipped = true ->
  forallb (fun line => negb (decides (TrimSpace line))) skipped = true ->
  confirm_loop TrimSpace (S (String.length (joinLines skipped ++ input))) cue
    (joinLines skipped ++ input) [] =
  confirm_loop TrimSpace (S (String.length (joinLines skipped ++ input)) - length skipped)
    cue input (repeat (prompt cue) (length skipped)).
Proof.
  intros Hlines Hund. pose proof (joinLines_length skipped Hlines) as Hlen.
  rewrite <- (confirm_loop_skip TrimSpace cue skipped input _ [] Hlines Hund).
  f_equal. rewrite length_append. lia.
Qed.

(** X16: [confirm] goes by the first line of its input that is [yes] or [no]
    once trimmed: the lines before it only make it print the prompt again,
    what follows it is not looked at, and the result is [true] for [yes],
    [false] for [no], with a nil error. *)
Theorem confirm_first_answer (TrimSpace : string -> string) (cue : string)
    (skipped : list string) (line rest : string) :
  forallb completeLine skipped = true ->
  forallb (fun l => negb (decides (TrimSpace l))) skipped = true ->
  completeLine line = true -> decides (TrimSpace line) = true ->
  confirm TrimSpace cue (joinLines skipped ++ line ++ rest) =
  (String.eqb (TrimSpace line) "yes", None, repeat (prompt cue) (S (length skipped))).
Proof.
  intros Hlines Hund Hline Hdec. unfold confirm.
  rewrite confirm_skip by assumption.
  pose proof (joinLines_length skipped Hlines) as Hlen.
  rewrite length_append.
  replace (S (String.length (joinLines skipped) + String.length (line ++ rest)) - length skipped)
    with (S (String.length (joinLines skipped) + String.length (line ++ rest) - length skipped))
    by lia.
  cbn [confirm_loop]. rewrite (ReadString_line _ _ Hline), repeat_snoc.
  unfold decides in Hdec.
  destruct (String.eqb (TrimSpace line) "yes"); [reflexivity|].
  cbn in Hdec. now rewrite Hdec.
Qed.

Lemma confirm_first_answer_witness :
  confirm asciiTrimSpace "Delete pvc default/data?"
    (joinLines ["maybe" ++ String newline EmptyString] ++
     (" yes " ++ String newline EmptyString) ++ "no") =
  (true, None, repeat (prompt "Delete pvc default/data?") 2).
Proof.
  apply (confirm_first_answer asciiTrimSpace "Delete pvc default/data?"
           ["maybe" ++ String newline EmptyString]
           (" yes " ++ String newline EmptyString) "no"); reflexivity.
Defined.

(** X17: when the input ends before a line that is [yes] or [no], [confirm]
    returns [false] and [io.EOF], whatever the unfinished last line is: a
    [yes] that is not followed by a newline is not an answer. *)
Theorem confirm_end_of_input (TrimSpace : string -> string) (cue : string)
    (skipped : list string) (tail : string) :
  forallb completeLine skipped = true ->
  forallb (fun l => negb (decides (TrimSpace l))) skipped = true ->
  noNewline tail = true ->
  confirm TrimSpace cue (joinLines skipped ++ tail) =
  (false, Some "EOF", repeat (prompt cue) (S (length skipped))).
Proof.
  intros Hlines Hund Htail. unfold confirm.
  rewrite confirm_skip by assumption.
  pose proof (joinLines_length skipped Hlines) as Hlen.
  rewrite length_append.
  replace (S (String.length (joinLines skipped) + String.length tail) - length skipped)
    with (S (String.length (joinLines skipped) + String.length tail - length skipped))
    by lia.
  cbn [confirm_loop]. now rewrite (ReadString_tail _ Htail), repeat_snoc.
Qed.

Lemma confirm_end_of_input_witness :
  confirm asciiTrimSpace "Delete pvc default/data?" (joinLines [] ++ "yes") =
  (false, Some "EOF", repeat (prompt "Delete pvc default/data?") 1).
Proof.
  apply (confirm_end_of_input asciiTrimSpace "Delete pvc default/data?" [] "yes");
    reflexivity.
Defined.

(** ** [main] *)

Lemma scanPods_objects (pvcName : string) (pods : list Pod) (c : Cluster) :
  podItems (fst (scanPods pvcName pods c)) = podItems c /\
  replicaSets (fst (scanPods pvcName pods c)) = replicaSets c /\
  statefulSets (fst (scanPods pvcName pods c)) = statefulSets c /\
  deployments (fst (scanPods pvcName pods c)) = deployments c.
Proof.
  induction pods as [|pod pods IH]; cbn; [auto|].
  rewrite scanVolumes_mounts. destruct (mounts pvcName pod); [|exact IH].
  destruct (ownerOfPod_result pod c) as [[-> | (name & ->)] _]; cbn; auto.
Qed.

Lemma workloadOfPVC_objects (pvcName : string) (c : Cluster) :
  podItems (fst (workloadOfPVC pvcName c)) = podItems c /\
  replicaSets (fst (workloadOfPVC pvcName c)) = replicaSets c /\
  statefulSets (fst (workloadOfPVC pvcName c)) = statefulSets c /\
  deployments (fst (workloadOfPVC pvcName c)) = deployments c.
Proof.
  unfold workloadOfPVC, podClient_List.
  destruct (podItems c) as [pods|err] eqn:Hpods; cbn; [|auto].
  destruct (scanPods_objects pvcName pods (sent PodList c)) as (Hp & Hr & Hs & Hd).
  cbn in Hp, Hr, Hs, Hd. rewrite Hp, Hr, Hs, Hd. auto.
Qed.



(** X18: unless the first question is answered with [yes], [main] changes
    nothing: no workload, no volume and no claim, whatever the answers to the
    later questions would be. *)
Theorem main_changes_nothing_without_first_yes
    (TrimSpace : string -> string) (pvcName namespace : string)
    (config clientSet : option error) (in1 in2 in3 : string)
    (c : Cluster) (st : Storage) :
  (forall cue, fst (fst (confirm TrimSpace cue in1)) = false) ->
  storage (main TrimSpace pvcName namespace config clientSet in1 in2 in3 c st) = st /\
  statefulSets (cluster (main TrimSpace pvcName namespace config clientSet in1 in2 in3 c st))
    = statefulSets c /\
  deployments (cluster (main TrimSpace pvcName namespace config clientSet in1 in2 in3 c st))
    = deployments c /\
  replicaSets (cluster (main TrimSpace pvcName namespace config clientSet in1 in2 in3 c st))
    = replicaSets c /\
  podItems (cluster (main TrimSpace pvcName namespace config clientSet in1 in2 in3 c st))
    = podItems c.
Proof.
  intros Hno. unfold main.
  destruct (_ || _); [cbn; auto|].
  destruct config; [cbn; auto|]. destruct clientSet; [cbn; auto|].
  destruct (workloadOfPVC_objects pvcName c) as (Hp & Hr & Hs & Hd).
  destruct (workloadOfPVC pvcName c) as [c1 [owner err]]. cbn in Hp, Hr, Hs, Hd.
  destruct err; [cbn; auto|]. destruct owner as [owner|]; [|cbn; auto].
  match goal with
  | |- context [confirm TrimSpace ?cue in1] =>
      specialize (Hno cue); destruct (confirm TrimSpace cue in1) as [[confirm1 e1] out1]
  end.
  cbn in Hno. subst confirm1. cbn. auto.
Qed.

Lemma main_changes_nothing_without_first_yes_witness :
  (forall cue, fst (fst (confirm asciiTrimSpace cue ("no" ++ String newline EmptyString)))
               = false) /\
  storage (main asciiTrimSpace "data" "default" None None
             ("no" ++ String newline EmptyString) EmptyString EmptyString
             webCluster webStorage) = webStorage.
Proof.
  assert (H : forall cue,
             fst (fst (confirm asciiTrimSpace cue ("no" ++ String newline EmptyString)))
             = false).
  { intros cue. reflexivity. }
  exact (conj H (proj1 (main_changes_nothing_without_first_yes asciiTrimSpace "data"
                          "default" None None _ EmptyString EmptyString
                          webCluster webStorage H))).
Defined.



End DeletePVCFacts.
